(** * The C++ binding of librealsense (include/librealsense/rs.hpp)

    A shallow embedding of the resource-managing wrapper classes of
    [namespace rs] and the properties of the binding contract.

    The header only marshals parameters, turns native error handles into
    thrown exceptions and manages the lifetime of native handles.  The
    native C library behind it (rs.h) is an interface here: every wrapper
    is written against an arbitrary implementation of that interface, and
    every native call the wrapper makes is recorded in a trace, so that
    "calls the driver once", "releases exactly once" and "makes no native
    call" are statements about the trace. *)

From Stdlib Require Import ZArith Lia.
From stdpp Require Import base list gmap gmultiset strings.

Local Open Scope Z_scope.

(** ** Native handles and data (rs.h) *)

(** A non-null [rs_frame *] is identified by the reference it denotes; the
    C pointer type [rs_frame *] is [option rs_frame], [nullptr] is [None].
    The same convention is used for every native pointer. *)
Definition rs_frame := nat.
Definition rs_device := nat.
Definition rs_frame_queue := nat.

Abbreviation nullptr := None (only parsing).

(** [rs_subdevice] and [rs_option] are C enumerations.  A value of an
    enumeration type is carried as the integer it converts to; the header
    itself produces such values with
    [static_cast<rs_subdevice>(static_cast<int>(_idx) + 1)]. *)
Definition rs_subdevice := Z.
Definition rs_option := Z.

(** Modelled from the spec: the enumerators of [rs_subdevice] are declared
    in rs.h, which is not part of the sources.  The spec names the four
    sensor units (color, depth, fisheye, motion), color being the first,
    and the sentinel count that closes the enumeration. *)
Definition RS_SUBDEVICE_COLOR : rs_subdevice := 0.
(** Modelled from the spec: the second kind. *)
Definition RS_SUBDEVICE_DEPTH : rs_subdevice := 1.
(** Modelled from the spec: the third kind. *)
Definition RS_SUBDEVICE_FISHEYE : rs_subdevice := 2.
(** Modelled from the spec: the fourth kind. *)
Definition RS_SUBDEVICE_MOTION : rs_subdevice := 3.
(** Modelled from the spec: the sentinel, the number of kinds. *)
Definition RS_SUBDEVICE_COUNT : rs_subdevice := 4.

(** The values an [rs_subdevice] object can hold: its underlying type is
    [int] or [unsigned int], depending on the compiler. *)
Definition enum_range (s : Z) : Prop := - 2 ^ 31 <= s < 2 ^ 32.

(** Conversion of an integer to [size_t] (64 bits), as performed by
    [sub < _subdevices.size()] and by [_subdevices[sub]]. *)
Definition to_size_t (x : Z) : Z := x mod 2 ^ 64.

(** A C [float] is only ever copied by the header, never computed with: it
    is carried as its 32-bit pattern. *)
Definition float := Z.

(** Modelled from the spec: the native error object [rs_error] of rs.h,
    seen through its three getters.  The message is what
    [rs_get_error_message] returns (it initialises a [std::runtime_error],
    so it is not null); the failing function and its arguments may be null
    pointers. *)
Record rs_error := {
  rs_get_error_message : string;
  rs_get_failed_function : option string;
  rs_get_failed_args : option string
}.

(** ** The trace of native calls *)

Inductive event :=
| call_free_error (err : rs_error)
| call_release_frame (p : option rs_frame)
| call_get_frame_bits_per_pixel (p : option rs_frame) (r : Z)
| call_clone_frame_ref (p : option rs_frame) (r : option rs_frame)
| call_get_subdevice_option_range (dev : option rs_device)
    (idx : rs_subdevice) (opt : rs_option)
| call_is_subdevice_supported (dev : option rs_device)
    (s : rs_subdevice) (r : Z)
| call_create_frame_queue (capacity : Z) (r : option rs_frame_queue)
| call_enqueue_frame (p : option rs_frame) (q : option rs_frame_queue)
| call_poll_for_frame (q : option rs_frame_queue) (res : Z)
    (out : option rs_frame).

(** ** The native interface

    Each native function is a transformer of the state [N] of the native
    library.  An output parameter is part of the result: the [rs_error **]
    slot, which every wrapper initialises to [nullptr] before the call, is
    the [option rs_error] component; the four [float *] parameters of
    [rs_get_subdevice_option_range] are the four floats, in parameter
    order; the [rs_frame **] parameter of [rs_poll_for_frame], which the
    wrapper initialises to [nullptr], is the [option rs_frame]. *)
Class Native (N : Type) := {
  rs_free_error : rs_error -> N -> N;
  rs_release_frame : option rs_frame -> N -> N;
  rs_get_frame_bits_per_pixel :
    option rs_frame -> N -> (Z * option rs_error) * N;
  rs_clone_frame_ref :
    option rs_frame -> N -> (option rs_frame * option rs_error) * N;
  rs_get_subdevice_option_range :
    option rs_device -> rs_subdevice -> rs_option -> N ->
    ((float * float * float * float) * option rs_error) * N;
  rs_is_subdevice_supported :
    option rs_device -> rs_subdevice -> N -> (Z * option rs_error) * N;
  rs_create_frame_queue :
    Z -> N -> (option rs_frame_queue * option rs_error) * N;
  rs_enqueue_frame : option rs_frame -> option rs_frame_queue -> N -> N;
  rs_poll_for_frame :
    option rs_frame_queue -> N ->
    (Z * option rs_frame * option rs_error) * N
}.

(** ** Exceptions and the monad of wrapper code *)

(** The exception object [rs::error]: a [std::runtime_error] (its [what])
    with the two extra strings. *)
Module error_object.
Record t := {
  what : string;
  function : string;
  args : string
}.
End error_object.

Inductive exn :=
| rs_error_exn (e : error_object.t)
| std_runtime_error (what : string).

Inductive outcome (A : Type) :=
| Ok (a : A)
| Throw (x : exn).
Arguments Ok {A} a.
Arguments Throw {A} x.

Record world (N : Type) := World {
  native : N;
  trace : list event
}.
Arguments World {N} native trace.
Arguments native {N} w.
Arguments trace {N} w.

Definition M (N A : Type) : Type := world N -> outcome A * world N.

Global Instance M_ret {N} : MRet (M N) := fun A a w => (Ok a, w).

Global Instance M_bind {N} : MBind (M N) := fun A B f m w =>
  match m w with
  | (Ok a, w') => f a w'
  | (Throw x, w') => (Throw x, w')
  end.

Definition throw {N A} (x : exn) : M N A := fun w => (Throw x, w).

(** The native calls made between two worlds of one run. *)
Definition events_since {N} (w0 w1 : world N) : list event :=
  drop (length (trace w0)) (trace w1).

(** A native call returning a value, and a native [void] call. *)
Definition call {N A} (f : N -> A * N) (ev : A -> event) : M N A :=
  fun w =>
    let '(a, n) := f (native w) in
    (Ok a, World n (trace w ++ [ev a])).

Definition call_void {N} (f : N -> N) (ev : event) : M N unit :=
  fun w => (Ok tt, World (f (native w)) (trace w ++ [ev])).

(** ** class error *)

Module error.
Section error.
Context {N : Type} `{!Native N}.

(** [explicit error(rs_error * err)] *)
Definition ctor (err : rs_error) : M N error_object.t :=
  let function :=
    match rs_get_failed_function err with
    | Some s => s
    | None => EmptyString
    end in
  let args :=
    match rs_get_failed_args err with
    | Some s => s
    | None => EmptyString
    end in
  call_void (rs_free_error err) (call_free_error err);;
  mret {| error_object.what := rs_get_error_message err;
          error_object.function := function;
          error_object.args := args |}.

(** [static void handle(rs_error * e) { if (e) throw error(e); }] *)
Definition handle (e : option rs_error) : M N unit :=
  match e with
  | Some err => x ← ctor err; throw (rs_error_exn x)
  | None => mret tt
  end.
End error.
End error.

(** ** class frame *)

Module frame.
Record t := { frame_ref : option rs_frame }.

(** [frame() : frame_ref(nullptr) {}] *)
Definition default : t := {| frame_ref := nullptr |}.

(** [frame(rs_frame * frame_ref)] *)
Definition of_ref (p : option rs_frame) : t := {| frame_ref := p |}.

(** [frame(frame&& other)]: the new frame, and [other] afterwards. *)
Definition move (other : t) : t * t :=
  ({| frame_ref := frame_ref other |}, {| frame_ref := nullptr |}).

(** [void swap(frame& other)]: [*this] and [other] afterwards. *)
Definition swap (this other : t) : t * t :=
  ({| frame_ref := frame_ref other |}, {| frame_ref := frame_ref this |}).

(** [operator bool() const] *)
Definition to_bool (this : t) : bool :=
  match frame_ref this with
  | Some _ => true
  | None => false
  end.

(** The calls to [rs_release_frame] the destructor of a frame makes. *)
Definition release_of (f : t) : list event :=
  match frame_ref f with
  | Some r => [call_release_frame (Some r)]
  | None => []
  end.

Section frame.
Context {N : Type} `{!Native N}.

(** [~frame()] *)
Definition dtor (this : t) : M N unit :=
  match frame_ref this with
  | Some p =>
      call_void (rs_release_frame (Some p)) (call_release_frame (Some p))
  | None => mret tt
  end.

(** [frame& operator=(frame other)]: the parameter [other] is an object
    of its own, built by the caller; it is destroyed when the operator
    returns.  The result is [*this] afterwards. *)
Definition assign (this other : t) : M N t :=
  let '(this, other) := swap this other in
  dtor other;;
  mret this.

(** [int get_bits_per_pixel() const] *)
Definition get_bits_per_pixel (this : t) : M N Z :=
  '(r, e) ← call (rs_get_frame_bits_per_pixel (frame_ref this))
               (fun re => call_get_frame_bits_per_pixel (frame_ref this) re.1);
  error.handle e;;
  mret r.

(** [int get_bytes_per_pixel() const]; [/] on [int] truncates. *)
Definition get_bytes_per_pixel (this : t) : M N Z :=
  r ← get_bits_per_pixel this;
  mret (r ÷ 8).

(** [bool try_clone_ref(frame* result) const]: the returned flag and
    [*result] afterwards.  [*result = frame(s)] builds the temporary
    [frame(s)], moves it into the parameter of [operator=] and destroys
    the emptied temporary at the end of the statement. *)
Definition try_clone_ref (this : t) (result : t) : M N (bool * t) :=
  '(s, e) ← call (rs_clone_frame_ref (frame_ref this))
               (fun se => call_clone_frame_ref (frame_ref this) se.1);
  error.handle e;;
  match s with
  | None => mret (false, result)
  | Some _ =>
      let '(other, tmp) := move (of_ref s) in
      result ← assign result other;
      dtor tmp;;
      mret (true, result)
  end.
End frame.
End frame.

(** ** struct option_range *)

Module option_range.
(** The fields in the order of the declaration: min, max, def, step. *)
Record t := {
  min : float;
  max : float;
  def : float;
  step : float
}.
End option_range.

(** ** class subdevice *)

Module subdevice.
Record t := {
  _dev : option rs_device;
  _index : rs_subdevice
}.

Section subdevice.
Context {N : Type} `{!Native N}.

(** [option_range get_option_range(rs_option option) const]: the native
    call receives [&result.min, &result.max, &result.step, &result.def]
    as its four output pointers, in this order. *)
Definition get_option_range (this : t) (option : rs_option)
  : M N option_range.t :=
  '(outs, e) ← call
      (rs_get_subdevice_option_range (_dev this) (_index this) option)
      (fun _ =>
         call_get_subdevice_option_range (_dev this) (_index this) option);
  let '(out1, out2, out3, out4) := outs in
  let result := {| option_range.min := out1;
                   option_range.max := out2;
                   option_range.step := out3;
                   option_range.def := out4 |} in
  error.handle e;;
  mret result.
End subdevice.
End subdevice.

(** ** class device *)

(** [for (auto i = first; i < first + length l; i++) body] over a state. *)
Fixpoint for_each {N A S : Type} (body : A -> S -> M N S) (l : list A) (s : S)
  : M N S :=
  match l with
  | [] => mret s
  | a :: l => s ← body a s; for_each body l s
  end.

Module device.
(** [_dev] is the shared native handle, [_subdevices] the vector of
    shared pointers to the subdevice wrappers: an empty slot holds a null
    pointer. *)
Record t := {
  _dev : option rs_device;
  _subdevices : list (option subdevice.t)
}.

Definition not_supported : exn :=
  std_runtime_error "Requested subdevice is not supported!".

(** [bool supports(rs_subdevice sub) const] *)
Definition supports (this : t) (sub : rs_subdevice) : bool :=
  (to_size_t sub <? Z.of_nat (length (_subdevices this)))
  && match _subdevices this !! Z.to_nat (to_size_t sub) with
     | Some (Some _) => true
     | _ => false
     end.

(** What the constructor leaves in the slot of kind [s] when the support
    probe answers [r], the slots it fills from kind [s] on for the
    answers [rs], and the native calls it makes for them. *)
Definition slot_of (dev : option rs_device) (s : rs_subdevice) (r : Z)
  : option subdevice.t :=
  if r =? 0 then None
  else Some {| subdevice._dev := dev; subdevice._index := s |}.

Fixpoint slots (dev : option rs_device) (s : rs_subdevice) (rs : list Z)
  : list (option subdevice.t) :=
  match rs with
  | [] => []
  | r :: rs => slot_of dev s r :: slots dev (s + 1) rs
  end.

Fixpoint probe_events (dev : option rs_device) (s : rs_subdevice)
    (rs : list Z) : list event :=
  match rs with
  | [] => []
  | r :: rs =>
      call_is_subdevice_supported dev s r :: probe_events dev (s + 1) rs
  end.

Section device.
Context {N : Type} `{!Native N}.

(** [subdevice& get_subdevice(rs_subdevice sub)] *)
Definition get_subdevice (this : t) (sub : rs_subdevice)
  : M N subdevice.t :=
  if to_size_t sub <? Z.of_nat (length (_subdevices this)) then
    match _subdevices this !! Z.to_nat (to_size_t sub) with
    | Some (Some sd) => mret sd
    | _ => throw not_supported
    end
  else throw not_supported.

(** The body of the loop of the constructor, on the vector. *)
Definition probe (dev : option rs_device) (i : Z)
    (subdevices : list (option subdevice.t))
  : M N (list (option subdevice.t)) :=
  let s : rs_subdevice := i in
  '(is_supported, e) ← call (rs_is_subdevice_supported dev s)
      (fun re => call_is_subdevice_supported dev s re.1);
  error.handle e;;
  if is_supported =? 0
  then mret (<[Z.to_nat (to_size_t s) := None]> subdevices)
  else mret (<[Z.to_nat (to_size_t s) :=
                 Some {| subdevice._dev := dev; subdevice._index := s |}]>
               subdevices).

(** [explicit device(std::shared_ptr<rs_device> dev)] *)
Definition ctor (dev : option rs_device) : M N t :=
  let subdevices := replicate (Z.to_nat RS_SUBDEVICE_COUNT) None in
  subdevices ← for_each (probe dev)
                 (seqZ 0 RS_SUBDEVICE_COUNT) subdevices;
  mret {| _dev := dev; _subdevices := subdevices |}.
End device.
End device.

(** ** class subdevice_iterator, begin, end *)

Module subdevice_iterator.
Record t := {
  _idx : rs_subdevice;
  _dev : device.t
}.

(** [operator++]: a do-while loop, run with fuel; [None] when the fuel
    is used up.  [static_cast<int>(_idx) + 1] is an addition on [int];
    below the sentinel it cannot overflow. *)
Fixpoint incr (fuel : nat) (this : t) : option t :=
  match fuel with
  | O => None
  | S fuel =>
      let this := {| _idx := _idx this + 1; _dev := _dev this |} in
      if negb (_idx this =? RS_SUBDEVICE_COUNT)
         && negb (device.supports (_dev this) (_idx this))
      then incr fuel this
      else Some this
  end.

(** [operator==] and [operator!=] *)
Definition eqb (this other : t) : bool := _idx this =? _idx other.
Definition neqb (this other : t) : bool := negb (_idx this =? _idx other).

(** [subdevice& operator*()] *)
Definition deref {N} (this : t) : M N subdevice.t :=
  device.get_subdevice (_dev this) (_idx this).

(** [begin(device dev)] and [end(device dev)] *)
Definition begin (dev : device.t) : t :=
  {| _idx := RS_SUBDEVICE_COLOR; _dev := dev |}.
Definition end_ (dev : device.t) : t :=
  {| _idx := RS_SUBDEVICE_COUNT; _dev := dev |}.

(** The traversal
    [for (auto it = first; it != last; ++it)] whose body dereferences
    [it], collecting the visited wrappers; [None] when the fuel is used
    up. *)
Fixpoint traverse {N} (fuel : nat) (it last : t)
  : M N (option (list subdevice.t)) :=
  match fuel with
  | O => mret None
  | S fuel =>
      if neqb it last then
        sd ← deref it;
        match incr (S fuel) it with
        | None => mret None
        | Some it =>
            rest ← traverse fuel it last;
            mret (cons sd <$> rest)
        end
      else mret (Some [])
  end.

(** [for (auto&& sd : dev) visit(sd);] *)
Definition iterate {N} (fuel : nat) (dev : device.t)
  : M N (option (list subdevice.t)) :=
  traverse fuel (begin dev) (end_ dev).
End subdevice_iterator.

(** ** class frame_queue *)

Module frame_queue.
Record t := { _queue : option rs_frame_queue }.

Section frame_queue.
Context {N : Type} `{!Native N}.

(** [explicit frame_queue(unsigned int capacity)] *)
Definition ctor (capacity : Z) : M N t :=
  '(q, e) ← call (rs_create_frame_queue capacity)
               (fun qe => call_create_frame_queue capacity qe.1);
  error.handle e;;
  mret {| _queue := q |}.

(** [void enqueue(frame f) const]: [f] is the parameter object, built by
    the caller and destroyed when the function returns. *)
Definition enqueue (this : t) (f : frame.t) : M N unit :=
  call_void (rs_enqueue_frame (frame.frame_ref f) (_queue this))
    (call_enqueue_frame (frame.frame_ref f) (_queue this));;
  let f := {| frame.frame_ref := nullptr |} in
  frame.dtor f.

(** [bool poll_for_frame(frame* f) const]: the returned flag and [*f]
    afterwards.  [*f = { frame_ref }] initialises the parameter of
    [operator=] with [frame(frame_ref)]. *)
Definition poll_for_frame (this : t) (f : frame.t) : M N (bool * frame.t) :=
  '(res, frame_ref, e) ← call (rs_poll_for_frame (_queue this))
      (fun r => call_poll_for_frame (_queue this) r.1.1 r.1.2);
  error.handle e;;
  f ← (if res =? 0 then mret f
       else frame.assign f (frame.of_ref frame_ref));
  mret (0 <? res, f).
End frame_queue.
End frame_queue.

(** ** Client code over frames

    What a caller writes with the classes above: the expressions the
    binding contract speaks of, and straight-line programs over named
    frame objects, in which two names may denote the same object. *)

Module client.
Definition var := nat.

(** The statements of a client program over frame objects. *)
Inductive stmt :=
| Default (x : var)                         (* frame x;                  *)
| Wrap (x : var) (p : option rs_frame)      (* frame x(p);               *)
| MoveCtor (x y : var)                      (* frame x(std::move(y));    *)
| MoveAssign (x y : var)                    (* x = std::move(y);         *)
| Swap (x y : var)                          (* x.swap(y);                *)
| TryCloneRef (x y : var)                   (* x.try_clone_ref(&y);      *)
| Enqueue (q : frame_queue.t) (x : var)     (* q.enqueue(std::move(x));  *)
| Destroy (x : var).                        (* x goes out of scope       *)

(** The native references a pointer stands for: one, or none. *)
Definition refs (p : option rs_frame) : gmultiset rs_frame :=
  match p with
  | Some r => {[+ r +]}
  | None => ∅
  end.

(** The references held by the live frames of a program. *)
Definition held (frames : gmap var frame.t) : gmultiset rs_frame :=
  map_fold (fun _ f acc => refs (frame.frame_ref f) ⊎ acc) ∅ frames.

(** The references passed to [rs_release_frame], and those passed to
    [rs_enqueue_frame], along a trace. *)
Definition released (tr : list event) : gmultiset rs_frame :=
  foldr (fun ev acc =>
           match ev with
           | call_release_frame p => refs p ⊎ acc
           | _ => acc
           end) ∅ tr.

Definition enqueued (tr : list event) : gmultiset rs_frame :=
  foldr (fun ev acc =>
           match ev with
           | call_enqueue_frame p _ => refs p ⊎ acc
           | _ => acc
           end) ∅ tr.

Section client.
Context {N : Type} `{!Native N}.

(** [G = std::move(F)] for two frame objects: [G] and [F] afterwards.
    The argument of [operator=] is move-constructed from [F]. *)
Definition move_assign (G F : frame.t) : M N (frame.t * frame.t) :=
  let '(other, F) := frame.move F in
  G ← frame.assign G other;
  mret (G, F).

(** [queue.enqueue(std::move(F))]: [F] afterwards. *)
Definition enqueue_moved (queue : frame_queue.t) (F : frame.t)
  : M N frame.t :=
  let '(f, F) := frame.move F in
  frame_queue.enqueue queue f;;
  mret F.

(** [for (p : ps) queue.enqueue(frame(p));] *)
Fixpoint enqueue_all (queue : frame_queue.t) (ps : list (option rs_frame))
  : M N unit :=
  match ps with
  | [] => mret tt
  | p :: ps =>
      enqueue_moved queue (frame.of_ref p);;
      enqueue_all queue ps
  end.

(** At most [k] times [queue.poll_for_frame(&f)], as long as it returns
    true: the references [f] holds after each successful poll. *)
Fixpoint poll_all (queue : frame_queue.t) (k : nat) (f : frame.t)
  : M N (list (option rs_frame)) :=
  match k with
  | O => mret []
  | S k =>
      '(polled, f) ← frame_queue.poll_for_frame queue f;
      if polled : bool then
        rest ← poll_all queue k f;
        mret (frame.frame_ref f :: rest)
      else mret []
  end.

(** The effect of a statement on the live frames: the frames afterwards
    and the references the program has newly taken charge of (wrapped
    from a raw pointer, or obtained from the driver as a clone).  A
    statement that names an object that is not alive, or declares one
    that is, is not part of a well-formed program and does nothing. *)
Definition effect (c : stmt) (frames : gmap var frame.t)
  : M N (gmap var frame.t * gmultiset rs_frame) :=
  match c with
  | Default x =>
      match frames !! x with
      | None => mret (<[x := frame.default]> frames, ∅)
      | Some _ => mret (frames, ∅)
      end
  | Wrap x p =>
      match frames !! x with
      | None => mret (<[x := frame.of_ref p]> frames, refs p)
      | Some _ => mret (frames, ∅)
      end
  | MoveCtor x y =>
      match frames !! x, frames !! y with
      | None, Some Y =>
          let '(X, Y) := frame.move Y in
          mret (<[x := X]> (<[y := Y]> frames), ∅)
      | _, _ => mret (frames, ∅)
      end
  | MoveAssign x y =>
      match frames !! x, frames !! y with
      | Some _, Some Y =>
          let '(other, Y) := frame.move Y in
          let frames := <[y := Y]> frames in
          match frames !! x with
          | Some X =>
              X ← frame.assign X other;
              mret (<[x := X]> frames, ∅)
          | None => mret (frames, ∅)
          end
      | _, _ => mret (frames, ∅)
      end
  | Swap x y =>
      match frames !! x, frames !! y with
      | Some X, Some Y =>
          let '(X, Y) := frame.swap X Y in
          mret (<[y := Y]> (<[x := X]> frames), ∅)
      | _, _ => mret (frames, ∅)
      end
  | TryCloneRef x y =>
      match frames !! x, frames !! y with
      | Some X, Some Y =>
          '(cloned, Y) ← frame.try_clone_ref X Y;
          mret (<[y := Y]> frames,
                if cloned : bool then refs (frame.frame_ref Y) else ∅)
      | _, _ => mret (frames, ∅)
      end
  | Enqueue q x =>
      match frames !! x with
      | Some X =>
          let '(f, X) := frame.move X in
          frame_queue.enqueue q f;;
          mret (<[x := X]> frames, ∅)
      | None => mret (frames, ∅)
      end
  | Destroy x =>
      match frames !! x with
      | Some X =>
          frame.dtor X;;
          mret (delete x frames, ∅)
      | None => mret (frames, ∅)
      end
  end.

(** The state of a running program: its live frames, the references it
    has taken charge of so far, and the world. *)
Record state := State {
  frames : gmap var frame.t;
  acquired : gmultiset rs_frame;
  the_world : world N
}.

(** A statement that throws leaves the program's frames as they are:
    the only throwing statement, [TryCloneRef], throws from
    [error::handle], before it touches a frame. *)
Definition exec (c : stmt) (st : state) : state :=
  match effect c (frames st) (the_world st) with
  | (Ok (frames', acq), w) => State frames' (acquired st ⊎ acq) w
  | (Throw _, w) => State (frames st) (acquired st) w
  end.

Definition run (prog : list stmt) (st : state) : state :=
  foldl (fun st c => exec c st) st prog.

(** Leaving the scope of every live frame: the objects that are still
    alive are destroyed, on a normal return as on stack unwinding. *)
Definition unwind (st : state) : state :=
  run (Destroy <$> (map_to_list (frames st)).*1) st.

Definition initial (n : N) : state := State ∅ ∅ (World n []).

(** Every reference the program took charge of is held by a live frame,
    was handed to a queue, or was released, with multiplicity. *)
Definition balanced (st : state) : Prop :=
  acquired st
  = held (frames st) ⊎ enqueued (trace (the_world st))
    ⊎ released (trace (the_world st)).
End client.
Arguments state : clear implicits.
End client.

(** ** A model of the native library *)

Module model.
(** Modelled from the spec: the native library behind rs.h (the functions
    of the class [Native]) is not part of the sources.  Its state holds
    the frame queues, which the spec describes as bounded-capacity FIFOs,
    and the scripted answers of a mock native layer for the other
    functions. *)
Record state := State {
  (** the error every fallible call reports, if any *)
  failing : option rs_error;
  (** the answer of the support probe for each subdevice kind *)
  supported : rs_subdevice -> Z;
  (** the answer of the bits-per-pixel query *)
  bits_per_pixel : Z;
  (** the four values written by the option-range query, in the order of
      its output parameters *)
  range_outputs : float * float * float * float;
  (** the reference a clone request returns *)
  clone : option rs_frame -> option rs_frame;
  (** the queues: capacity and pending entries, oldest first *)
  queues : gmap rs_frame_queue (nat * list (option rs_frame));
  (** the handle of the next queue to be created *)
  next_queue : rs_frame_queue
}.

Definition set_queues (n : state)
    (qs : gmap rs_frame_queue (nat * list (option rs_frame))) : state :=
  State (failing n) (supported n) (bits_per_pixel n) (range_outputs n)
    (clone n) qs (next_queue n).

Section model.
Variable overflow :
  list (option rs_frame) -> option rs_frame -> list (option rs_frame).

(** Modelled from the spec: [rs_create_frame_queue], missing from the
    sources, creates an empty queue of the given capacity. *)
Definition create_frame_queue (capacity : Z) (n : state)
  : (option rs_frame_queue * option rs_error) * state :=
  match failing n with
  | Some err => ((nullptr, Some err), n)
  | None =>
      let q := next_queue n in
      ((Some q, None),
       State (failing n) (supported n) (bits_per_pixel n) (range_outputs n)
         (clone n) (<[q := (Z.to_nat capacity, [])]> (queues n)) (S q))
  end.

(** Modelled from the spec: [rs_enqueue_frame], missing from the sources,
    takes the frame into the queue, behind the pending entries, and does
    not fail.  What a full queue does with one more frame is not said by
    the spec: it is the parameter [overflow]. *)
Definition enqueue_frame (p : option rs_frame) (q : option rs_frame_queue)
    (n : state) : state :=
  match q with
  | Some q =>
      match queues n !! q with
      | Some (capacity, entries) =>
          let entries :=
            if decide (length entries < capacity)%nat
            then entries ++ [p]
            else overflow entries p in
          set_queues n (<[q := (capacity, entries)]> (queues n))
      | None => n
      end
  | None => n
  end.

(** Modelled from the spec: [rs_poll_for_frame], missing from the sources,
    does not block; it reports whether an entry was available and, if so,
    hands out the oldest one. *)
Definition poll_for_frame (q : option rs_frame_queue) (n : state)
  : (Z * option rs_frame * option rs_error) * state :=
  match failing n with
  | Some err => ((0, nullptr, Some err), n)
  | None =>
      match q ≫= fun q => pair q <$> queues n !! q with
      | Some (q, (capacity, p :: entries)) =>
          ((1, p, None),
           set_queues n (<[q := (capacity, entries)]> (queues n)))
      | _ => ((0, nullptr, None), n)
      end
  end.

(** A fallible query that answers [r] unless the library is failing. *)
Definition answer {A} (r default : A) (n : state)
  : (A * option rs_error) * state :=
  match failing n with
  | Some err => ((default, Some err), n)
  | None => ((r, None), n)
  end.

(** Modelled from the spec: the native functions the wrappers call, as a
    mock native layer with the FIFO queue above. *)
Definition native_model : Native state := {|
  rs_free_error := fun _ n => n;
  rs_release_frame := fun _ n => n;
  rs_get_frame_bits_per_pixel := fun _ n => answer (bits_per_pixel n) 0 n;
  rs_clone_frame_ref := fun p n => answer (clone n p) nullptr n;
  rs_get_subdevice_option_range := fun _ _ _ n =>
    answer (range_outputs n) (0, 0, 0, 0) n;
  rs_is_subdevice_supported := fun _ s n => answer (supported n s) 0 n;
  rs_create_frame_queue := create_frame_queue;
  rs_enqueue_frame := enqueue_frame;
  rs_poll_for_frame := poll_for_frame
|}.
End model.

(** A full queue that drops its oldest entry. *)
Definition drop_oldest (entries : list (option rs_frame))
    (p : option rs_frame) : list (option rs_frame) :=
  tail entries ++ [p].

(** A library in working order, with a device that has a depth and a
    fisheye sensor only, 16-bit pixels, and no queue yet. *)
Definition sample : state :=
  State None
    (fun s => if (s =? RS_SUBDEVICE_DEPTH) || (s =? RS_SUBDEVICE_FISHEYE)
              then 1 else 0)
    16 (10, 20, 30, 40) (fun p => S <$> p) ∅ 0%nat.

(** The same library with a device that has all four sensors. *)
Definition full_device : state :=
  State None (fun _ => 1) 16 (10, 20, 30, 40) (fun p => S <$> p) ∅ 0%nat.

(** The same library, failing every fallible call. *)
Definition broken : state :=
  State (Some {| rs_get_error_message := "device disconnected";
                 rs_get_failed_function := None;
                 rs_get_failed_args := Some "frame:7" |})
    (fun _ => 1) 16 (10, 20, 30, 40) (fun p => S <$> p) ∅ 0%nat.
End model.

(** The mock native layer used in the examples, and the device wrapper
    built on it for the native device handle 5. *)
Definition mock : Native model.state := model.native_model model.drop_oldest.

Definition sample_world : world model.state := World model.sample [].

Definition sample_device : device.t :=
  {| device._dev := Some 5%nat;
     device._subdevices := device.slots (Some 5%nat) 0 [0; 1; 1; 0] |}.

Definition sample_world_after_ctor : world model.state :=
  (@device.ctor _ mock (Some 5%nat) sample_world).2.

(** A world with one queue, of capacity 2, holding the references 1 and 2,
    enqueued in this order. *)
Definition sample_queue : frame_queue.t :=
  {| frame_queue._queue := Some 0%nat |}.

Definition sample_queue_world : world model.state :=
  World
    (model.set_queues model.sample
       {[ 0%nat := (2%nat, [Some 1%nat; Some 2%nat]) ]})
    [].

(** ** class frame_callback, and a frame_queue used as a callback *)

Module frame_callback.
Section frame_callback.
Context {N : Type} `{!Native N}.

(** A callable [T] of shape [(frame) -> void], by what a call does: its
    outcome, and the state in which it leaves the frame object it was
    given. *)
Definition callable : Type :=
  frame.t -> world N -> (outcome unit * frame.t) * world N.

(** [void on_frame(rs_frame * fref) override
       { on_frame_function({ fref }); }]: the argument object, built from
    [fref], lives for the call and is destroyed after it, on return as on
    unwinding. *)
Definition on_frame (on_frame_function : callable) (fref : option rs_frame)
  : M N unit :=
  fun w =>
    let '((r, f), w) := on_frame_function (frame.of_ref fref) w in
    let '(_, w) := frame.dtor f w in
    (r, w).

(** [void operator()(frame f) const { enqueue(std::move(f)); }] of
    [frame_queue], as a callable. *)
Definition queue_operator (queue : frame_queue.t) : callable :=
  fun f w =>
    let '(arg, f) := frame.move f in
    let '(r, w) := frame_queue.enqueue queue arg w in
    ((r, f), w).

(** A callable that uses the frame where it is and does not move it
    away. *)
Definition in_place (body : frame.t -> M N unit) : callable :=
  fun f w =>
    let '(r, w) := body f w in
    ((r, f), w).
End frame_callback.
End frame_callback.

(** The device wrapper built on the mock native layer when the device has
    all four sensors. *)
Definition full_sample_device : device.t :=
  {| device._dev := Some 5%nat;
     device._subdevices := device.slots (Some 5%nat) 0 [1; 1; 1; 1] |}.

(** ** Streams, contexts and device lists

    The wrappers below call native functions that are not in the class
    [Native].  They run on a native library whose state carries the log
    of every native call made, of either kind, in the order of the
    calls. *)

Definition rs_stream := Z.
Definition rs_format := Z.
Definition rs_stream_modes_list := nat.
Definition rs_streaming_lock := nat.
Definition rs_context := nat.
Definition rs_device_list := nat.

(** Conversion of an integer to [int] (32 bits), as performed by
    [static_cast<int>(profiles.size())]. *)
Definition to_int (x : Z) : Z := (x + 2 ^ 31) mod 2 ^ 32 - 2 ^ 31.

(** [struct stream_profile] *)
Module stream_profile.
Record t := {
  stream : rs_stream;
  width : Z;
  height : Z;
  fps : Z;
  format : rs_format
}.
End stream_profile.

(** The native calls of the log: those of the class [Native], and the
    calls of the functions below, with their arguments and results. *)
Inductive native_call :=
| base_call (ev : event)
| call_get_stream_modes (dev : option rs_device) (idx : rs_subdevice)
    (r : option rs_stream_modes_list)
| call_get_modes_count (list : option rs_stream_modes_list) (r : Z)
| call_get_stream_mode (list : option rs_stream_modes_list) (i : Z)
    (outs : Z * Z * Z * Z * Z)
| call_delete_modes_list (list : option rs_stream_modes_list)
| call_open_many (dev : option rs_device) (idx : rs_subdevice)
    (streams widths heights fpss formats : list Z) (count : Z)
    (r : option rs_streaming_lock)
| call_close (lock : option rs_streaming_lock)
| call_query_devices (ctx : option rs_context) (r : option rs_device_list)
| call_get_device_count (list : option rs_device_list) (r : Z)
| call_create_device (list : option rs_device_list) (i : Z)
    (r : option rs_device)
| call_delete_device (dev : option rs_device)
| call_delete_device_list (list : option rs_device_list).

(** The native functions of streams and device lists, as transformers of
    the state of the native library.  As in [Native], an output parameter
    is part of the result: the five output pointers of
    [rs_get_stream_mode] are the five integers, in parameter order; an
    array parameter is the list of its elements. *)
Class NativeRest (N : Type) := {
  rs_get_stream_modes :
    option rs_device -> rs_subdevice -> N ->
    (option rs_stream_modes_list * option rs_error) * N;
  rs_get_modes_count :
    option rs_stream_modes_list -> N -> (Z * option rs_error) * N;
  rs_get_stream_mode :
    option rs_stream_modes_list -> Z -> N ->
    ((Z * Z * Z * Z * Z) * option rs_error) * N;
  rs_delete_modes_list : option rs_stream_modes_list -> N -> N;
  rs_open_many :
    option rs_device -> rs_subdevice ->
    list Z -> list Z -> list Z -> list Z -> list Z -> Z -> N ->
    (option rs_streaming_lock * option rs_error) * N;
  rs_close : option rs_streaming_lock -> N -> N;
  rs_query_devices :
    option rs_context -> N -> (option rs_device_list * option rs_error) * N;
  rs_get_device_count :
    option rs_device_list -> N -> (Z * option rs_error) * N;
  rs_create_device :
    option rs_device_list -> Z -> N ->
    (option rs_device * option rs_error) * N;
  rs_delete_device : option rs_device -> N -> N;
  rs_delete_device_list : option rs_device_list -> N -> N
}.

(** A native library together with the log of the calls made to it. *)
Record logged (N : Type) := Logged {
  state : N;
  log : list native_call
}.
Arguments Logged {N} state log.
Arguments state {N} l.
Arguments log {N} l.

Definition logging {N A} (f : N -> A * N) (ev : A -> native_call)
  : logged N -> A * logged N :=
  fun l =>
    let '(a, n) := f (state l) in
    (a, Logged n (log l ++ [ev a])).

Definition logging_void {N} (f : N -> N) (ev : native_call)
  : logged N -> logged N :=
  fun l => Logged (f (state l)) (log l ++ [ev]).

(** The functions of [Native] on a logged library: each one does what it
    does and enters its call in the log. *)
Global Instance logged_native {N : Type} `{!Native N} : Native (logged N) := {|
  rs_free_error err :=
    logging_void (rs_free_error err) (base_call (call_free_error err));
  rs_release_frame p :=
    logging_void (rs_release_frame p) (base_call (call_release_frame p));
  rs_get_frame_bits_per_pixel p :=
    logging (rs_get_frame_bits_per_pixel p)
      (fun re => base_call (call_get_frame_bits_per_pixel p re.1));
  rs_clone_frame_ref p :=
    logging (rs_clone_frame_ref p)
      (fun se => base_call (call_clone_frame_ref p se.1));
  rs_get_subdevice_option_range dev idx opt :=
    logging (rs_get_subdevice_option_range dev idx opt)
      (fun _ => base_call (call_get_subdevice_option_range dev idx opt));
  rs_is_subdevice_supported dev s :=
    logging (rs_is_subdevice_supported dev s)
      (fun re => base_call (call_is_subdevice_supported dev s re.1));
  rs_create_frame_queue capacity :=
    logging (rs_create_frame_queue capacity)
      (fun qe => base_call (call_create_frame_queue capacity qe.1));
  rs_enqueue_frame p q :=
    logging_void (rs_enqueue_frame p q) (base_call (call_enqueue_frame p q));
  rs_poll_for_frame q :=
    logging (rs_poll_for_frame q)
      (fun r => base_call (call_poll_for_frame q r.1.1 r.1.2))
|}.

(** A call of a function of [NativeRest], which returns a value or is
    [void]. *)
Definition call_rest {N A} (f : N -> A * N) (ev : A -> native_call)
  : M (logged N) A :=
  fun w =>
    let '(a, l) := logging f ev (native w) in
    (Ok a, World l (trace w)).

Definition call_rest_void {N} (f : N -> N) (ev : native_call)
  : M (logged N) unit :=
  fun w => (Ok tt, World (logging_void f ev (native w)) (trace w)).

(** A [std::shared_ptr] built from a pointer and a deleter, local to a
    function and shared with nothing that outlives the function: when the
    scope is left, by a return or by an exception, the deleter is called
    on the pointer, null or not. *)
Definition scoped {N A} (deleter : M (logged N) unit) (body : M (logged N) A)
  : M (logged N) A :=
  fun w =>
    let '(r, w) := body w in
    let '(_, w) := deleter w in
    (r, w).

(** The same for a pointer that the value returned by the function
    shares: the deleter is called only when the scope is left by an
    exception. *)
Definition shared_with_result {N A} (deleter : M (logged N) unit)
    (body : M (logged N) A) : M (logged N) A :=
  fun w =>
    match body w with
    | (Ok a, w) => (Ok a, w)
    | (Throw x, w) =>
        let '(_, w) := deleter w in
        (Throw x, w)
    end.

(** [class streaming_lock]: the shared native handle. *)
Module streaming_lock.
Record t := { _lock : option rs_streaming_lock }.
End streaming_lock.

(** The stream functions of [class subdevice]. *)
Module subdevice_streams.
Section subdevice_streams.
Context {N : Type} `{!Native N} `{!NativeRest N}.

(** The body of the loop of [get_stream_modes], on [results]; the native
    call receives [&profile.stream, &profile.width, &profile.height,
    &profile.fps, &profile.format], in this order. *)
Definition get_mode (modes_list : option rs_stream_modes_list) (i : Z)
    (results : list stream_profile.t) : M (logged N) (list stream_profile.t) :=
  '(outs, e) ← call_rest (rs_get_stream_mode modes_list i)
                  (fun oe => call_get_stream_mode modes_list i oe.1);
  let '(out1, out2, out3, out4, out5) := outs in
  let profile := {| stream_profile.stream := out1;
                    stream_profile.width := out2;
                    stream_profile.height := out3;
                    stream_profile.fps := out4;
                    stream_profile.format := out5 |} in
  error.handle e;;
  mret (results ++ [profile]).

(** [std::vector<stream_profile> get_stream_modes() const] *)
Definition get_stream_modes (this : subdevice.t)
  : M (logged N) (list stream_profile.t) :=
  let results := [] in
  '(modes_list, e) ← call_rest
      (rs_get_stream_modes (subdevice._dev this) (subdevice._index this))
      (fun le => call_get_stream_modes (subdevice._dev this)
                   (subdevice._index this) le.1);
  scoped
    (call_rest_void (rs_delete_modes_list modes_list)
       (call_delete_modes_list modes_list))
    (error.handle e;;
     '(size, e) ← call_rest (rs_get_modes_count modes_list)
                     (fun se => call_get_modes_count modes_list se.1);
     error.handle e;;
     for_each (get_mode modes_list) (seqZ 0 size) results).

(** The loop of [open] that fills the five vectors. *)
Definition marshal (profiles : list stream_profile.t)
  : list Z * list Z * list Z * list Z * list Z :=
  foldl (fun '(formats, widths, heights, fpss, streams) p =>
           (formats ++ [stream_profile.format p],
            widths ++ [stream_profile.width p],
            heights ++ [stream_profile.height p],
            fpss ++ [stream_profile.fps p],
            streams ++ [stream_profile.stream p]))
    ([], [], [], [], []) profiles.

(** [streaming_lock open(const std::vector<stream_profile>& profiles)
    const] *)
Definition open (this : subdevice.t) (profiles : list stream_profile.t)
  : M (logged N) streaming_lock.t :=
  let '(formats, widths, heights, fpss, streams) := marshal profiles in
  let count := to_int (Z.of_nat (length profiles)) in
  '(lock, e) ← call_rest
      (rs_open_many (subdevice._dev this) (subdevice._index this)
         streams widths heights fpss formats count)
      (fun le => call_open_many (subdevice._dev this) (subdevice._index this)
                   streams widths heights fpss formats count le.1);
  shared_with_result (call_rest_void (rs_close lock) (call_close lock))
    (error.handle e;;
     mret {| streaming_lock._lock := lock |}).
End subdevice_streams.
End subdevice_streams.

(** [class context]: enumeration of the devices. *)
Module context.
Record t := { _context : option rs_context }.

Section context.
Context {N : Type} `{!Native N} `{!NativeRest N}.

(** The destruction of a device that is the last owner of its native
    handle. *)
Definition device_dtor (d : device.t) : M (logged N) unit :=
  call_rest_void (rs_delete_device (device._dev d))
    (call_delete_device (device._dev d)).

(** The destruction of the vector [results]: its devices are the last
    owners of their handles.  The language does not fix the order in
    which a vector destroys its elements; here it is first to last. *)
Definition destroy_devices (results : list device.t) : M (logged N) unit :=
  for_each (fun d _ => device_dtor d) results tt.

(** One turn of the loop of [query_devices], on [results]: [dev] is
    shared with the device that goes into [results]. *)
Definition create_one (device_list : option rs_device_list) (i : Z)
    (results : list device.t) : M (logged N) (list device.t) :=
  '(dev, e) ← call_rest (rs_create_device device_list i)
                 (fun de => call_create_device device_list i de.1);
  shared_with_result
    (call_rest_void (rs_delete_device dev) (call_delete_device dev))
    (error.handle e;;
     rs_dev ← device.ctor dev;
     mret (results ++ [rs_dev])).

(** The loop of [query_devices]: an exception leaves the scope of
    [results], which is destroyed. *)
Fixpoint create_devices (device_list : option rs_device_list) (indices : list Z)
    (results : list device.t) : M (logged N) (list device.t) :=
  match indices with
  | [] => mret results
  | i :: indices =>
      fun w =>
        match create_one device_list i results w with
        | (Ok results, w) => create_devices device_list indices results w
        | (Throw x, w) =>
            let '(_, w) := destroy_devices results w in
            (Throw x, w)
        end
  end.

(** [std::vector<device> query_devices() const] *)
Definition query_devices (this : t) : M (logged N) (list device.t) :=
  '(device_list, e) ← call_rest (rs_query_devices (_context this))
                  (fun le => call_query_devices (_context this) le.1);
  scoped
    (call_rest_void (rs_delete_device_list device_list)
       (call_delete_device_list device_list))
    (error.handle e;;
     '(size, e) ← call_rest (rs_get_device_count device_list)
                     (fun se => call_get_device_count device_list se.1);
     error.handle e;;
     create_devices device_list (seqZ 0 size) []).
End context.
End context.

(** The handles that [rs_create_device] returned and those that were
    passed to [rs_delete_device], along a log. *)
Definition created (calls : list native_call) : list (option rs_device) :=
  calls ≫= fun c =>
    match c with
    | call_create_device _ _ r => [r]
    | _ => []
    end.

Definition deleted (calls : list native_call) : list (option rs_device) :=
  calls ≫= fun c =>
    match c with
    | call_delete_device dev => [dev]
    | _ => []
    end.

(** A mock of the native functions of streams and device lists, on the
    state of the model: a subdevice has the two modes 640x480 and
    1280x720, a context has the two devices 10 and 11, and every call
    fails when the library is failing. *)
Definition sample_modes : list (Z * Z * Z * Z * Z) :=
  [(1, 640, 480, 30, 2); (1, 1280, 720, 15, 2)].

Definition mock_rest : NativeRest model.state := {|
  rs_get_stream_modes := fun _ _ n => model.answer (Some 3%nat) nullptr n;
  rs_get_modes_count := fun _ n =>
    model.answer (Z.of_nat (length sample_modes)) 0 n;
  rs_get_stream_mode := fun _ i n =>
    model.answer (default (0, 0, 0, 0, 0) (sample_modes !! Z.to_nat i))
      (0, 0, 0, 0, 0) n;
  rs_delete_modes_list := fun _ n => n;
  rs_open_many := fun _ _ _ _ _ _ _ _ n =>
    model.answer (Some 4%nat) nullptr n;
  rs_close := fun _ n => n;
  rs_query_devices := fun _ n => model.answer (Some 8%nat) nullptr n;
  rs_get_device_count := fun _ n => model.answer 2 0 n;
  rs_create_device := fun _ i n =>
    model.answer (Some (10 + Z.to_nat i)%nat) nullptr n;
  rs_delete_device := fun _ n => n;
  rs_delete_device_list := fun _ n => n
|}.

(** A computation that only adds to the log, and only calls that satisfy
    [P]. *)
Definition appends {N A} (P : native_call -> Prop) (m : M (logged N) A)
  : Prop :=
  forall w : world (logged N),
    exists calls : list native_call,
      log (native (m w).2) = log (native w) ++ calls /\ Forall P calls.

(** The calls of the functions of [Native]. *)
Definition is_base (c : native_call) : Prop := exists ev, c = base_call ev.

(** The profile that [get_stream_modes] builds from the five values the
    native call writes. *)
Definition profile_of (outs : Z * Z * Z * Z * Z) : stream_profile.t :=
  let '(out1, out2, out3, out4, out5) := outs in
  {| stream_profile.stream := out1;
     stream_profile.width := out2;
     stream_profile.height := out3;
     stream_profile.fps := out4;
     stream_profile.format := out5 |}.

(** The calls of [rs_create_device] along a log. *)
Definition creations (calls : list native_call) : list native_call :=
  calls ≫= fun c =>
    match c with
    | call_create_device _ _ _ => [c]
    | _ => []
    end.

(** * Properties *)

(** ** Running monadic code *)

Lemma bind_Ok {N A B} (m : M N A) (f : A -> M N B) w a w' :
  m w = (Ok a, w') -> (m ≫= f) w = f a w'.
Proof. intros Hm. unfold mbind, M_bind. by rewrite Hm. Qed.

Lemma bind_Throw {N A B} (m : M N A) (f : A -> M N B) w x w' :
  m w = (Throw x, w') -> (m ≫= f) w = (Throw x, w').
Proof. intros Hm. unfold mbind, M_bind. by rewrite Hm. Qed.

Ltac run_monad :=
  unfold mbind, M_bind, mret, M_ret, throw, call, call_void; simpl.

(** ** error *)

Section error_facts.
Context {N : Type} `{!Native N}.

Lemma handle_null (w : world N) : error.handle nullptr w = (Ok tt, w).
Proof. reflexivity. Qed.

Lemma handle_error (err : rs_error) (w : world N) :
  error.handle (Some err) w
  = (Throw (rs_error_exn
              {| error_object.what := rs_get_error_message err;
                 error_object.function :=
                   default EmptyString (rs_get_failed_function err);
                 error_object.args :=
                   default EmptyString (rs_get_failed_args err) |}),
     World (rs_free_error err (native w))
       (trace w ++ [call_free_error err])).
Proof. reflexivity. Qed.
End error_facts.

(** C2: [error::handle] on a null handle does nothing and throws nothing;
    on a non-null handle it throws an [rs::error] whose message is the
    native message, whose failing function and failing arguments are the
    native strings, or the empty string where the native getter returns a
    null pointer, and it frees the native error object, once. *)
Theorem error_handle_translates {N : Type} `{!Native N}
    (e : option rs_error) (w : world N) :
  match e with
  | None => error.handle e w = (Ok tt, w)
  | Some err =>
      exists x : error_object.t,
        error.handle e w
        = (Throw (rs_error_exn x),
           World (rs_free_error err (native w))
             (trace w ++ [call_free_error err]))
        /\ error_object.what x = rs_get_error_message err
        /\ error_object.function x
           = match rs_get_failed_function err with
             | Some s => s
             | None => EmptyString
             end
        /\ error_object.args x
           = match rs_get_failed_args err with
             | Some s => s
             | None => EmptyString
             end
  end.
Proof.
  destruct e as [err|]; [|apply handle_null].
  eexists. split; [apply handle_error|]. by destruct err as [? [] []].
Qed.

(** ** frame *)

Section frame_facts.
Context {N : Type} `{!Native N}.

Lemma dtor_spec (f : frame.t) (w : world N) :
  frame.dtor f w
  = (Ok tt,
     match frame.frame_ref f with
     | Some r =>
         World (rs_release_frame (Some r) (native w))
           (trace w ++ [call_release_frame (Some r)])
     | None => w
     end).
Proof. unfold frame.dtor. by destruct (frame.frame_ref f). Qed.

Lemma dtor_trace (f : frame.t) (w : world N) :
  trace (frame.dtor f w).2 = trace w ++ frame.release_of f.
Proof.
  rewrite dtor_spec. unfold frame.release_of.
  destruct (frame.frame_ref f); simpl; by rewrite ?app_nil_r.
Qed.

Lemma assign_spec (this other : frame.t) (w : world N) :
  frame.assign this other w
  = (Ok (frame.of_ref (frame.frame_ref other)), (frame.dtor this w).2).
Proof.
  unfold frame.assign. simpl. destruct this as [r].
  erewrite bind_Ok; [reflexivity|].
  rewrite !dtor_spec. by destruct r.
Qed.

Lemma move_assign_spec (G F : frame.t) (w : world N) :
  client.move_assign G F w
  = (Ok (frame.of_ref (frame.frame_ref F), frame.default),
     (frame.dtor G w).2).
Proof.
  unfold client.move_assign. simpl.
  erewrite bind_Ok by apply assign_spec. reflexivity.
Qed.
End frame_facts.

(** C5: a default-constructed frame converts to [false], and so does a
    frame after [F = frame()]; a frame built from a non-null native
    reference converts to [true]; after [G = std::move(F)], as a move
    construction of [G] or as a move assignment to another frame object
    [G], [F] converts to [false] and [G] holds the reference [F] held
    before. *)
Theorem frame_bool_after_construction_and_move {N : Type} `{!Native N} :
  frame.to_bool frame.default = false
  /\ (forall (F : frame.t) (w : world N),
        exists (F' : frame.t) (w' : world N),
          frame.assign F frame.default w = (Ok F', w')
          /\ frame.to_bool F' = false)
  /\ (forall r : rs_frame, frame.to_bool (frame.of_ref (Some r)) = true)
  /\ (forall F : frame.t,
        frame.to_bool (frame.move F).2 = false
        /\ frame.frame_ref (frame.move F).1 = frame.frame_ref F)
  /\ (forall (G F : frame.t) (w : world N),
        exists (G' F' : frame.t) (w' : world N),
          client.move_assign G F w = (Ok (G', F'), w')
          /\ frame.to_bool F' = false
          /\ frame.frame_ref G' = frame.frame_ref F).
Proof.
  split; [done|]. split.
  { intros F w. eexists _, _. by rewrite assign_spec. }
  repeat split.
  intros G F w. eexists _, _, _. by rewrite move_assign_spec.
Qed.

(** A frame moved onto itself keeps its reference: the two names of C5
    have to denote two objects. *)
Lemma self_move_assign_keeps {N : Type} `{!Native N}
    (r : rs_frame) (n : N) :
  let st := client.run [client.Wrap 0%nat (Some r);
                        client.MoveAssign 0%nat 0%nat] (client.initial n) in
  client.frames st !! 0%nat = Some (frame.of_ref (Some r))
  /\ trace (client.the_world st) = [].
Proof. split; reflexivity. Qed.

(** C9: [get_bytes_per_pixel] is the truncating quotient by 8 of what
    [get_bits_per_pixel] returns, throws what it throws, and leaves the
    world as [get_bits_per_pixel] leaves it: the only query it sends to
    the native library is the one bits-per-pixel query (followed by the
    release of the error object when that query fails). *)
Theorem bytes_per_pixel_is_bits_div_8 {N : Type} `{!Native N}
    (this : frame.t) (w : world N) :
  frame.get_bytes_per_pixel this w
  = match frame.get_bits_per_pixel this w with
    | (Ok bits, w') => (Ok (bits ÷ 8), w')
    | (Throw x, w') => (Throw x, w')
    end
  /\ exists (bits : Z) (e : option rs_error) (n : N),
       rs_get_frame_bits_per_pixel (frame.frame_ref this) (native w)
       = ((bits, e), n)
       /\ trace (frame.get_bytes_per_pixel this w).2
          = trace w
            ++ call_get_frame_bits_per_pixel (frame.frame_ref this) bits
               :: match e with
                  | Some err => [call_free_error err]
                  | None => []
                  end.
Proof.
  split.
  - unfold frame.get_bytes_per_pixel, mbind, M_bind.
    by destruct (frame.get_bits_per_pixel this w) as [[bits|x] w'].
  - unfold frame.get_bytes_per_pixel, frame.get_bits_per_pixel.
    run_monad.
    destruct (rs_get_frame_bits_per_pixel _ _) as [[bits e] n].
    exists bits, e, n. split; [done|].
    destruct e; simpl; by rewrite <- ?app_assoc.
Qed.

Example bytes_per_pixel_16_bits :
  (@frame.get_bytes_per_pixel _ mock (frame.of_ref (Some 3%nat))
     (World model.sample [])).1 = Ok 2.
Proof. reflexivity. Qed.

(** ** frame_queue: enqueue *)

(** C6: [enqueue] returns normally, whatever the native library does: it
    makes exactly one native call, [rs_enqueue_frame] with the reference
    of its argument, it consults no error slot and releases nothing; and
    after [queue.enqueue(std::move(F))] the caller's frame [F] is empty, so
    that its destructor releases nothing. *)
Theorem enqueue_transfers_ownership {N : Type} `{!Native N}
    (queue : frame_queue.t) (F : frame.t) (w : world N) :
  frame_queue.enqueue queue F w
  = (Ok tt,
     World
       (rs_enqueue_frame (frame.frame_ref F) (frame_queue._queue queue)
          (native w))
       (trace w ++ [call_enqueue_frame (frame.frame_ref F)
                      (frame_queue._queue queue)]))
  /\ exists F' : frame.t,
       client.enqueue_moved queue F w
       = (Ok F',
          World
            (rs_enqueue_frame (frame.frame_ref F) (frame_queue._queue queue)
               (native w))
            (trace w ++ [call_enqueue_frame (frame.frame_ref F)
                           (frame_queue._queue queue)]))
       /\ frame.to_bool F' = false
       /\ frame.release_of F' = [].
Proof. split; [done|]. by exists frame.default. Qed.

(** ** subdevice: get_option_range *)

(** C4: when the native call writes [a], [b], [c], [d] through its four
    output pointers, in this order, and reports no error,
    [get_option_range] returns the range whose [min] is [a], [max] is [b],
    [step] is [c] and [def] is [d]. *)
Theorem get_option_range_positional {N : Type} `{!Native N}
    (this : subdevice.t) (option : rs_option) (w : world N)
    (a b c d : float) (n : N) :
  rs_get_subdevice_option_range (subdevice._dev this) (subdevice._index this)
    option (native w) = ((a, b, c, d), None, n) ->
  exists (r : option_range.t) (w' : world N),
    subdevice.get_option_range this option w = (Ok r, w')
    /\ option_range.min r = a
    /\ option_range.max r = b
    /\ option_range.step r = c
    /\ option_range.def r = d.
Proof.
  intros Hcall. unfold subdevice.get_option_range. run_monad.
  rewrite Hcall. simpl. eexists _, _. repeat split.
Qed.

Lemma get_option_range_positional_witness :
  exists (r : option_range.t) (w' : world model.state),
    @subdevice.get_option_range _ mock
      {| subdevice._dev := Some 1%nat;
         subdevice._index := RS_SUBDEVICE_DEPTH |} 7
      (World model.sample []) = (Ok r, w')
    /\ option_range.min r = 10
    /\ option_range.max r = 20
    /\ option_range.step r = 30
    /\ option_range.def r = 40.
Proof.
  apply (@get_option_range_positional _ mock
           {| subdevice._dev := Some 1%nat;
              subdevice._index := RS_SUBDEVICE_DEPTH |} 7
           (World model.sample []) 10 20 30 40 model.sample).
  reflexivity.
Defined.

(** ** device: supports and get_subdevice *)

Section device_facts.
Context {N : Type} `{!Native N}.

(** The slot [supports] and [get_subdevice] both look at. *)
Lemma get_subdevice_slot (this : device.t) (s : rs_subdevice) (w : world N) :
  device.get_subdevice this s w
  = match
      (if to_size_t s <? Z.of_nat (length (device._subdevices this))
       then device._subdevices this !! Z.to_nat (to_size_t s)
       else None) with
    | Some (Some sd) => (Ok sd, w)
    | _ => (Throw device.not_supported, w)
    end.
Proof.
  unfold device.get_subdevice.
  destruct (to_size_t s <? _); [|done].
  by destruct (device._subdevices this !! _) as [[sd|]|].
Qed.

Lemma supports_slot (this : device.t) (s : rs_subdevice) :
  device.supports this s
  = match
      (if to_size_t s <? Z.of_nat (length (device._subdevices this))
       then device._subdevices this !! Z.to_nat (to_size_t s)
       else None) with
    | Some (Some sd) => true
    | _ => false
    end.
Proof.
  unfold device.supports.
  destruct (to_size_t s <? _); [|done].
  by destruct (device._subdevices this !! _) as [[sd|]|].
Qed.
End device_facts.

(** C10: for every device and every value [s] of the subdevice
    enumeration, in the table or not, [supports] is a total function of
    the wrapper's own table (it takes no world: it can neither throw nor
    call the native library), and [get_subdevice] returns a wrapper,
    leaving the world untouched, when [supports] is true, and throws when
    [supports] is false. *)
Theorem get_subdevice_agrees_with_supports {N : Type}
    (this : device.t) (s : rs_subdevice) (w : world N) :
  if device.supports this s
  then exists sd : subdevice.t, device.get_subdevice this s w = (Ok sd, w)
  else device.get_subdevice this s w = (Throw device.not_supported, w).
Proof.
  rewrite supports_slot, get_subdevice_slot.
  destruct (if to_size_t s <? _ then _ else _) as [[sd|]|]; eauto.
Qed.

(** ** device: construction *)

Section ctor_facts.
Context {N : Type} `{!Native N}.

Lemma probe_Ok (dev : option rs_device) (i : Z)
    (subdevices subdevices' : list (option subdevice.t)) (w w' : world N) :
  device.probe dev i subdevices w = (Ok subdevices', w') ->
  exists r : Z,
    subdevices'
    = <[Z.to_nat (to_size_t i) := device.slot_of dev i r]> subdevices
    /\ trace w' = trace w ++ [call_is_subdevice_supported dev i r].
Proof.
  unfold device.probe, device.slot_of. run_monad.
  destruct (rs_is_subdevice_supported dev i (native w)) as [[r [err|]] n];
    simpl; [done|].
  destruct (r =? 0) eqn:Hr; intros [= <- <-]; exists r; by rewrite Hr.
Qed.

(** The loop of the constructor fills the pending slots, in order, from
    the answers of the probe. *)
Lemma probe_loop (dev : option rs_device)
    (pending done : list (option subdevice.t))
    (subdevices' : list (option subdevice.t)) (w w' : world N) :
  Z.of_nat (length done + length pending) <= 2 ^ 64 ->
  for_each (device.probe dev)
    (seqZ (Z.of_nat (length done)) (Z.of_nat (length pending)))
    (done ++ pending) w = (Ok subdevices', w') ->
  exists rs : list Z,
    length rs = length pending
    /\ subdevices' = done ++ device.slots dev (Z.of_nat (length done)) rs
    /\ trace w' = trace w ++ device.probe_events dev (Z.of_nat (length done)) rs.
Proof.
  revert done w. induction pending as [|p pending IH]; intros done w Hlen.
  - simpl. intros [= <- <-]. exists []. by rewrite !app_nil_r.
  - rewrite seqZ_cons by (simpl; lia). simpl for_each.
    unfold mbind, M_bind.
    destruct (device.probe dev _ _ w) as [[subs1|x] w1] eqn:Hprobe; [|done].
    apply probe_Ok in Hprobe as (r & -> & Htr).
    assert (Z.to_nat (to_size_t (Z.of_nat (length done))) = length done)
      as ->.
    { unfold to_size_t. rewrite Z.mod_small; [lia|].
      rewrite length_cons in Hlen. lia. }
    rewrite insert_app_r_alt, Nat.sub_diag by lia. simpl insert.
    replace (Z.succ (Z.of_nat (length done)))
      with (Z.of_nat (length (done ++ [device.slot_of dev
              (Z.of_nat (length done)) r])))
      by (rewrite length_app; simpl; lia).
    replace (Z.pred (Z.of_nat (S (length pending))))
      with (Z.of_nat (length pending)) by lia.
    rewrite (cons_middle _ done pending), app_assoc.
    intros Hrest. apply IH in Hrest as (rs & Hrs & -> & Htr').
    + exists (r :: rs). split; [simpl; lia|].
      rewrite length_app in *. simpl length in *.
      replace (Z.of_nat (length done + 1)) with (Z.of_nat (length done) + 1)
        in * by lia.
      simpl. rewrite <- app_assoc. split; [done|].
      rewrite Htr', Htr, <- app_assoc. done.
    + rewrite length_app in *. simpl in *. lia.
Qed.

Lemma ctor_Ok (dev : option rs_device) (this : device.t) (w0 w1 : world N) :
  device.ctor dev w0 = (Ok this, w1) ->
  exists rs : list Z,
    length rs = Z.to_nat RS_SUBDEVICE_COUNT
    /\ this = {| device._dev := dev;
                 device._subdevices := device.slots dev 0 rs |}
    /\ trace w1 = trace w0 ++ device.probe_events dev 0 rs.
Proof.
  unfold device.ctor, mbind, M_bind.
  destruct (for_each _ _ _ w0) as [[subs|x] w] eqn:Hloop; [|done].
  intros [= <- <-].
  apply (probe_loop dev (replicate (Z.to_nat RS_SUBDEVICE_COUNT) None) [])
    in Hloop as (rs & Hrs & -> & Htr); [|simpl; lia].
  exists rs. by rewrite Hrs.
Qed.

Lemma lookup_slots (dev : option rs_device) (rs : list Z) (s : Z) (j : nat) :
  device.slots dev s rs !! j
  = device.slot_of dev (s + Z.of_nat j) <$> rs !! j.
Proof.
  revert s j. induction rs as [|r rs IH]; intros s [|j]; simpl; try done.
  - by rewrite Z.add_0_r.
  - rewrite IH. do 2 f_equal. lia.
Qed.

Lemma length_slots (dev : option rs_device) (rs : list Z) (s : Z) :
  length (device.slots dev s rs) = length rs.
Proof. revert s. induction rs; intros; simpl; auto. Qed.

Lemma elem_of_probe_events (dev : option rs_device) (rs : list Z)
    (s0 s r : Z) :
  call_is_subdevice_supported dev s r ∈ device.probe_events dev s0 rs
  <-> exists j : nat, rs !! j = Some r /\ s = s0 + Z.of_nat j.
Proof.
  revert s0. induction rs as [|r' rs IH]; intros s0; simpl.
  - split; [by intros ?%elem_of_nil|by intros ([|?] & ? & _)].
  - rewrite elem_of_cons, IH. split.
    + intros [[= -> ->]|(j & Hj & ->)].
      * exists 0%nat. split; [done|lia].
      * exists (S j). split; [done|lia].
    + intros ([|j] & Hj & ->); simpl in Hj.
      * left. injection Hj as ->. f_equal. lia.
      * right. exists j. split; [done|lia].
Qed.
End ctor_facts.

Section get_subdevice_facts.
Context {N : Type} `{!Native N}.

Lemma to_size_t_small (s : Z) : 0 <= s < 2 ^ 64 -> to_size_t s = s.
Proof. apply Z.mod_small. Qed.

Lemma to_size_t_out_of_table (s : Z) :
  enum_range s -> ~ (0 <= s < RS_SUBDEVICE_COUNT) ->
  (to_size_t s <? RS_SUBDEVICE_COUNT) = false.
Proof.
  unfold enum_range, RS_SUBDEVICE_COUNT, to_size_t. intros Hs Hout.
  apply Z.ltb_ge. destruct (decide (s < 0)).
  - replace s with (s + 2 ^ 64 - 1 * 2 ^ 64) by lia.
    rewrite Zminus_mod, Z_mod_mult, Z.sub_0_r, Zmod_mod.
    rewrite Z.mod_small; lia.
  - rewrite Z.mod_small; lia.
Qed.

(** What [get_subdevice] does on a constructed device, kind by kind. *)
Lemma get_subdevice_constructed (dev : option rs_device) (rs : list Z)
    (s : rs_subdevice) (w : world N) :
  length rs = Z.to_nat RS_SUBDEVICE_COUNT ->
  enum_range s ->
  device.get_subdevice
    {| device._dev := dev; device._subdevices := device.slots dev 0 rs |}
    s w
  = match (if decide (0 <= s < RS_SUBDEVICE_COUNT)
           then rs !! Z.to_nat s else None) with
    | Some r =>
        if r =? 0 then (Throw device.not_supported, w)
        else (Ok {| subdevice._dev := dev; subdevice._index := s |}, w)
    | None => (Throw device.not_supported, w)
    end.
Proof.
  intros Hrs Hs. rewrite get_subdevice_slot. simpl.
  rewrite length_slots, Hrs, Z2Nat.id by done.
  case_decide as Hin.
  - rewrite to_size_t_small by (unfold RS_SUBDEVICE_COUNT in Hin; lia).
    destruct (Z.ltb_spec s RS_SUBDEVICE_COUNT); [|lia].
    rewrite lookup_slots, Z2Nat.id, Z.add_0_l by lia.
    destruct (rs !! Z.to_nat s) as [r|]; [|done]. simpl.
    unfold device.slot_of. by destruct (r =? 0).
  - by rewrite to_size_t_out_of_table.
Qed.
End get_subdevice_facts.

(** C3: on a device the constructor has built, for every value [s] of the
    subdevice enumeration, [get_subdevice] throws the plain
    [std::runtime_error] "not supported", leaving the world as it is (no
    native call, no native error object), exactly when [s] is outside the
    table or the support probe made by the constructor answered 0 for [s];
    and it returns the wrapper of kind [s] on the device's handle exactly
    when that probe gave a non-zero answer for [s]. *)
Theorem get_subdevice_after_probe {N : Type} `{!Native N}
    (dev : option rs_device) (w0 w1 : world N) (this : device.t)
    (s : rs_subdevice) (w : world N) :
  device.ctor dev w0 = (Ok this, w1) ->
  enum_range s ->
  (device.get_subdevice this s w = (Throw device.not_supported, w)
   <-> ~ (0 <= s < RS_SUBDEVICE_COUNT)
       \/ call_is_subdevice_supported dev s 0 ∈ events_since w0 w1)
  /\ (device.get_subdevice this s w
      = (Ok {| subdevice._dev := dev; subdevice._index := s |}, w)
      <-> exists r : Z,
            r <> 0 /\ call_is_subdevice_supported dev s r ∈ events_since w0 w1).
Proof.
  intros (rs & Hrs & -> & Htr)%ctor_Ok Hs.
  unfold events_since. rewrite Htr, drop_app_length.
  rewrite get_subdevice_constructed by done.
  setoid_rewrite elem_of_probe_events.
  case_decide as Hin.
  - destruct (lookup_lt_is_Some_2 rs (Z.to_nat s)) as [r Hr].
    { rewrite Hrs. unfold RS_SUBDEVICE_COUNT in *. lia. }
    rewrite Hr.
    assert (forall r', (exists j : nat, rs !! j = Some r' /\ s = 0 + Z.of_nat j)
                       <-> r' = r) as Hreported.
    { intros r'. split.
      - intros (j & Hj & ->). rewrite Z.add_0_l, Nat2Z.id in Hr. congruence.
      - intros ->. exists (Z.to_nat s). split; [done|lia]. }
    destruct (Z.eqb_spec r 0) as [->|Hr0].
    + split.
      * split; [intros _; right; by apply Hreported|done].
      * split; [done|]. intros (r' & Hr' & Heq%Hreported). done.
    + split.
      * split; [done|]. intros [?|Heq%Hreported]; [done|congruence].
      * split; [|done]. intros _. exists r. split; [done|by apply Hreported].
  - split.
    + split; [by left|done].
    + split; [done|]. intros (r & _ & j & Hj%lookup_lt_Some & ->).
      rewrite Hrs in Hj. unfold RS_SUBDEVICE_COUNT in *. lia.
Qed.

Lemma get_subdevice_after_probe_witness :
  (@device.get_subdevice model.state sample_device RS_SUBDEVICE_COLOR sample_world
   = (Throw device.not_supported, sample_world)
   <-> ~ (0 <= RS_SUBDEVICE_COLOR < RS_SUBDEVICE_COUNT)
       \/ call_is_subdevice_supported (Some 5%nat) RS_SUBDEVICE_COLOR 0
          ∈ events_since sample_world sample_world_after_ctor)
  /\ (@device.get_subdevice model.state sample_device RS_SUBDEVICE_COLOR
        sample_world
      = (Ok {| subdevice._dev := Some 5%nat;
               subdevice._index := RS_SUBDEVICE_COLOR |}, sample_world)
      <-> exists r : Z,
            r <> 0
            /\ call_is_subdevice_supported (Some 5%nat) RS_SUBDEVICE_COLOR r
               ∈ events_since sample_world sample_world_after_ctor).
Proof.
  apply (@get_subdevice_after_probe model.state mock (Some 5%nat) sample_world
           sample_world_after_ctor sample_device RS_SUBDEVICE_COLOR
           sample_world).
  - reflexivity.
  - unfold enum_range, RS_SUBDEVICE_COLOR. lia.
Defined.

(** ** subdevice_iterator *)

(** With a color sensor, the traversal from [begin] to [end] visits the
    wrappers of the supported kinds, in ascending order of kind, and ends:
    five units of fuel are enough. *)
Lemma iterate_with_color {N : Type} (this : device.t) (w : world N)
    (fuel : nat) :
  length (device._subdevices this) = Z.to_nat RS_SUBDEVICE_COUNT ->
  device.supports this RS_SUBDEVICE_COLOR = true ->
  subdevice_iterator.iterate (5 + fuel) this w
  = (Ok (Some (omap id (device._subdevices this))), w).
Proof.
  destruct this as [dev subdevices]. simpl.
  destruct subdevices as [|a [|b [|c [|d [|]]]]]; try done.
  intros _. destruct a as [a|]; [|done]. intros _.
  by destruct b, c, d.
Qed.

(** Without a color sensor the first dereference throws, whatever else the
    device supports. *)
Lemma iterate_without_color {N : Type} (this : device.t) (w : world N)
    (fuel : nat) :
  device.supports this RS_SUBDEVICE_COLOR = false ->
  subdevice_iterator.iterate (S fuel) this w
  = (Throw device.not_supported, w).
Proof.
  intros Hcolor.
  assert (device.get_subdevice this RS_SUBDEVICE_COLOR w
          = (Throw device.not_supported, w)) as Hget.
  { rewrite get_subdevice_slot. rewrite supports_slot in Hcolor.
    by destruct (if to_size_t _ <? _ then _ else _) as [[sd|]|]. }
  unfold subdevice_iterator.iterate. simpl.
  unfold subdevice_iterator.deref. simpl.
  by erewrite bind_Throw.
Qed.

(** C1, at a device that has a depth and a fisheye sensor and no color
    sensor: the constructor builds the device, the device supports the two
    kinds, and the traversal from [begin] to [end] throws "not supported"
    at its first dereference instead of visiting them. *)
Theorem iterate_throws_on_device_without_color :
  @device.ctor _ mock (Some 5%nat) sample_world
  = (Ok sample_device, sample_world_after_ctor)
  /\ device.supports sample_device RS_SUBDEVICE_COLOR = false
  /\ device.supports sample_device RS_SUBDEVICE_DEPTH = true
  /\ device.supports sample_device RS_SUBDEVICE_FISHEYE = true
  /\ forall fuel : nat,
       subdevice_iterator.iterate (S fuel) sample_device
         sample_world_after_ctor
       = (Throw device.not_supported, sample_world_after_ctor).
Proof.
  split; [reflexivity|]. do 3 (split; [reflexivity|]).
  intros fuel. by apply iterate_without_color.
Qed.

(** ** frame_queue: poll_for_frame *)

Section poll_facts.
Context {N : Type} `{!Native N}.

(** The wrapper, for any native library: nothing available leaves [*f]
    alone; otherwise [*f] takes the polled reference and the frame it
    held is released. *)
Lemma poll_for_frame_spec (queue : frame_queue.t) (f : frame.t)
    (w : world N) (res : Z) (out : option rs_frame) (n : N) :
  rs_poll_for_frame (frame_queue._queue queue) (native w)
  = ((res, out, None), n) ->
  let w1 :=
    World n (trace w ++ [call_poll_for_frame (frame_queue._queue queue)
                           res out]) in
  frame_queue.poll_for_frame queue f w
  = if res =? 0 then (Ok (false, f), w1)
    else (Ok (0 <? res, frame.of_ref out), (frame.dtor f w1).2).
Proof.
  intros Hcall. unfold frame_queue.poll_for_frame. run_monad.
  rewrite Hcall. simpl.
  destruct (Z.eqb_spec res 0) as [->|Hres]; [done|].
  fold (@mret (M N) _ (bool * frame.t)).
  by rewrite assign_spec.
Qed.
End poll_facts.

(** On the model of the native library. *)
Section model_queue.
Variable overflow :
  list (option rs_frame) -> option rs_frame -> list (option rs_frame).

Let native_of := model.native_model overflow.
#[local] Existing Instance native_of.

(** A queue the constructor has built is a queue of the model, empty and
    of the requested capacity. *)
Lemma ctor_creates_queue (capacity : Z) (w : world model.state) :
  model.failing (native w) = None ->
  exists (q : rs_frame_queue) (w' : world model.state),
    @frame_queue.ctor _ native_of capacity w
    = (Ok {| frame_queue._queue := Some q |}, w')
    /\ model.failing (native w') = None
    /\ model.queues (native w') !! q = Some (Z.to_nat capacity, []).
Proof.
  intros Hfail. unfold frame_queue.ctor. run_monad.
  unfold model.create_frame_queue. rewrite Hfail. simpl.
  eexists _, _. split; [done|]. simpl. split; [done|].
  by rewrite lookup_insert_eq.
Qed.

Lemma model_poll_empty (q : rs_frame_queue) (capacity : nat) (f : frame.t)
    (w : world model.state) :
  model.failing (native w) = None ->
  model.queues (native w) !! q = Some (capacity, []) ->
  @frame_queue.poll_for_frame _ native_of {| frame_queue._queue := Some q |}
    f w
  = (Ok (false, f),
     World (native w) (trace w ++ [call_poll_for_frame (Some q) 0 None])).
Proof.
  intros Hfail Hq.
  erewrite (@poll_for_frame_spec _ native_of _ f w 0 None (native w));
    [done|].
  simpl. unfold model.poll_for_frame. rewrite Hfail. simpl. by rewrite Hq.
Qed.

Lemma model_poll_oldest (q : rs_frame_queue) (capacity : nat)
    (oldest : option rs_frame) (rest : list (option rs_frame))
    (f : frame.t) (w : world model.state) :
  model.failing (native w) = None ->
  model.queues (native w) !! q = Some (capacity, oldest :: rest) ->
  exists w' : world model.state,
    @frame_queue.poll_for_frame _ native_of
      {| frame_queue._queue := Some q |} f w
    = (Ok (true, frame.of_ref oldest), w')
    /\ model.failing (native w') = None
    /\ model.queues (native w') !! q = Some (capacity, rest)
    /\ trace w'
       = trace w ++ [call_poll_for_frame (Some q) 1 oldest]
         ++ frame.release_of f.
Proof.
  intros Hfail Hq.
  erewrite (@poll_for_frame_spec _ native_of _ f w 1 oldest).
  2:{ simpl. unfold model.poll_for_frame. rewrite Hfail. simpl.
      rewrite Hq. reflexivity. }
  simpl. eexists. split; [done|]. rewrite dtor_trace, dtor_spec. simpl.
  repeat split.
  - by destruct (frame.frame_ref f).
  - destruct (frame.frame_ref f); simpl; by rewrite lookup_insert_eq.
  - by rewrite <- app_assoc.
Qed.

Lemma model_enqueue_room (q : rs_frame_queue) (capacity : nat)
    (entries : list (option rs_frame)) (F : frame.t)
    (w : world model.state) :
  model.queues (native w) !! q = Some (capacity, entries) ->
  (length entries < capacity)%nat ->
  exists w' : world model.state,
    @client.enqueue_moved _ native_of {| frame_queue._queue := Some q |} F w
    = (Ok frame.default, w')
    /\ model.failing (native w') = model.failing (native w)
    /\ model.queues (native w') !! q
       = Some (capacity, entries ++ [frame.frame_ref F]).
Proof.
  intros Hq Hroom. eexists. split; [reflexivity|].
  simpl. unfold model.enqueue_frame. rewrite Hq.
  rewrite decide_True by done. simpl. by rewrite lookup_insert_eq.
Qed.

Lemma enqueue_all_appends (q : rs_frame_queue) (capacity : nat)
    (ps entries : list (option rs_frame)) (w : world model.state) :
  model.failing (native w) = None ->
  model.queues (native w) !! q = Some (capacity, entries) ->
  (length entries + length ps <= capacity)%nat ->
  exists w' : world model.state,
    @client.enqueue_all _ native_of {| frame_queue._queue := Some q |} ps w
    = (Ok tt, w')
    /\ model.failing (native w') = None
    /\ model.queues (native w') !! q = Some (capacity, entries ++ ps).
Proof.
  revert entries w. induction ps as [|p ps IH]; intros entries w Hfail Hq Hlen.
  - exists w. by rewrite app_nil_r.
  - simpl in Hlen.
    destruct (model_enqueue_room q capacity entries (frame.of_ref p) w Hq)
      as (w1 & Hrun1 & Hfail1 & Hq1); [lia|].
    destruct (IH (entries ++ [p]) w1) as (w' & Hrun & Hfail' & Hq');
      [congruence|done|rewrite length_app; simpl; lia|].
    exists w'. simpl client.enqueue_all.
    erewrite bind_Ok by apply Hrun1.
    by rewrite <- app_assoc in Hq'.
Qed.

Lemma poll_all_S (queue : frame_queue.t) (k : nat) (f : frame.t)
    (w : world model.state) :
  @client.poll_all _ native_of queue (S k) f w
  = match @frame_queue.poll_for_frame _ native_of queue f w with
    | (Ok (true, f'), w') =>
        match @client.poll_all _ native_of queue k f' w' with
        | (Ok rest, w'') => (Ok (frame.frame_ref f' :: rest), w'')
        | (Throw x, w'') => (Throw x, w'')
        end
    | (Ok (false, _), w') => (Ok [], w')
    | (Throw x, w') => (Throw x, w')
    end.
Proof.
  change (client.poll_all queue (S k) f w)
    with ((frame_queue.poll_for_frame queue f
           ≫= fun '(polled, f) =>
                if polled : bool then
                  rest ← client.poll_all queue k f;
                  mret (frame.frame_ref f :: rest)
                else mret []) w).
  unfold mbind, M_bind.
  destruct (frame_queue.poll_for_frame queue f w) as [[[[] f']|x] w'];
    try done.
Qed.

Lemma poll_all_drains (q : rs_frame_queue) (capacity : nat)
    (entries : list (option rs_frame)) (f : frame.t)
    (w : world model.state) :
  model.failing (native w) = None ->
  model.queues (native w) !! q = Some (capacity, entries) ->
  (@client.poll_all _ native_of {| frame_queue._queue := Some q |}
     (S (length entries)) f w).1
  = Ok entries.
Proof.
  revert f w. induction entries as [|p entries IH]; intros f w Hfail Hq.
  - by rewrite poll_all_S, (model_poll_empty q capacity).
  - destruct (model_poll_oldest q capacity p entries f w Hfail Hq)
      as (w' & Hpoll & Hfail' & Hq' & _).
    simpl length. rewrite poll_all_S, Hpoll.
    specialize (IH (frame.of_ref p) w' Hfail' Hq').
    destruct (client.poll_all _ _ _ w') as [[rest|x] w'']; simpl in IH;
      [|done].
    by injection IH as ->.
Qed.

(** Frames enqueued into an empty queue with room for them are polled
    back in the order of their enqueueing, and then the queue is empty. *)
Lemma fifo_order (q : rs_frame_queue) (capacity : nat)
    (ps : list (option rs_frame)) (f : frame.t) (w : world model.state) :
  model.failing (native w) = None ->
  model.queues (native w) !! q = Some (capacity, []) ->
  (length ps <= capacity)%nat ->
  ((@client.enqueue_all _ native_of {| frame_queue._queue := Some q |} ps;;
    @client.poll_all _ native_of {| frame_queue._queue := Some q |}
      (S (length ps)) f) w).1
  = Ok ps.
Proof.
  intros Hfail Hq Hlen.
  destruct (enqueue_all_appends q capacity ps [] w Hfail Hq Hlen)
    as (w' & Hrun & Hfail' & Hq').
  erewrite bind_Ok by apply Hrun.
  by apply (poll_all_drains q capacity).
Qed.
End model_queue.

(** C7, on the queue of the model of the native library: when the queue
    has no entry, [poll_for_frame] returns [false] and [*f] is unchanged;
    when it has entries, [poll_for_frame] returns [true], [*f] holds the
    oldest entry, the frame [*f] held before is released, and the
    remaining entries stay queued in their order; and the entries are in
    the order of the calls of [enqueue]: while there is room, an enqueued
    frame goes behind the entries already there. *)
Theorem poll_for_frame_fifo
    (overflow : list (option rs_frame) -> option rs_frame ->
                list (option rs_frame))
    (q : rs_frame_queue) (capacity : nat) (entries : list (option rs_frame))
    (f : frame.t) (w : world model.state) :
  model.failing (native w) = None ->
  model.queues (native w) !! q = Some (capacity, entries) ->
  match entries with
  | [] =>
      @frame_queue.poll_for_frame _ (model.native_model overflow)
        {| frame_queue._queue := Some q |} f w
      = (Ok (false, f),
         World (native w) (trace w ++ [call_poll_for_frame (Some q) 0 None]))
  | oldest :: rest =>
      exists w' : world model.state,
        @frame_queue.poll_for_frame _ (model.native_model overflow)
          {| frame_queue._queue := Some q |} f w
        = (Ok (true, frame.of_ref oldest), w')
        /\ model.queues (native w') !! q = Some (capacity, rest)
        /\ trace w'
           = trace w ++ [call_poll_for_frame (Some q) 1 oldest]
             ++ frame.release_of f
  end
  /\ forall F : frame.t,
       (length entries < capacity)%nat ->
       model.queues
         (native (@client.enqueue_moved _ (model.native_model overflow)
                    {| frame_queue._queue := Some q |} F w).2) !! q
       = Some (capacity, entries ++ [frame.frame_ref F]).
Proof.
  intros Hfail Hq. split.
  - destruct entries as [|oldest rest].
    + by apply (model_poll_empty overflow q capacity).
    + destruct (model_poll_oldest overflow q capacity oldest rest f w
                  Hfail Hq) as (w' & Hpoll & _ & Hq' & Htr).
      by exists w'.
  - intros F Hroom.
    destruct (model_enqueue_room overflow q capacity entries F w Hq Hroom)
      as (w' & -> & _ & Hq').
    done.
Qed.

Lemma poll_for_frame_fifo_witness :
  (exists w' : world model.state,
     @frame_queue.poll_for_frame _ (model.native_model model.drop_oldest)
       {| frame_queue._queue := Some 0%nat |} (frame.of_ref (Some 7%nat))
       sample_queue_world
     = (Ok (true, frame.of_ref (Some 1%nat)), w')
     /\ model.queues (native w') !! 0%nat = Some (2%nat, [Some 2%nat])
     /\ trace w'
        = trace sample_queue_world
          ++ [call_poll_for_frame (Some 0%nat) 1 (Some 1%nat)]
          ++ frame.release_of (frame.of_ref (Some 7%nat)))
  /\ forall F : frame.t,
       (length [Some 1%nat; Some 2%nat] < 2)%nat ->
       model.queues
         (native (@client.enqueue_moved _
                    (model.native_model model.drop_oldest)
                    {| frame_queue._queue := Some 0%nat |} F
                    sample_queue_world).2) !! 0%nat
       = Some (2%nat, [Some 1%nat; Some 2%nat] ++ [frame.frame_ref F]).
Proof.
  apply (poll_for_frame_fifo model.drop_oldest 0%nat 2%nat
           [Some 1%nat; Some 2%nat] (frame.of_ref (Some 7%nat))
           sample_queue_world); reflexivity.
Defined.

#[local] Existing Instance mock.

(** Two frames through a queue of capacity 2 come out in the order they
    went in, and a third poll finds nothing. *)
Example fifo_round_trip :
  ((q ← @frame_queue.ctor _ mock 2;
    client.enqueue_moved q (frame.of_ref (Some 1%nat));;
    client.enqueue_moved q (frame.of_ref (Some 2%nat));;
    r1 ← frame_queue.poll_for_frame q frame.default;
    r2 ← frame_queue.poll_for_frame q r1.2;
    r3 ← frame_queue.poll_for_frame q r2.2;
    mret (r1, r2, r3)) sample_world).1
  = Ok ((true, frame.of_ref (Some 1%nat)),
        (true, frame.of_ref (Some 2%nat)),
        (false, frame.of_ref (Some 2%nat))).
Proof. reflexivity. Qed.

(** ** frame: ownership of native references *)

Section accounting.
Implicit Types (frames : gmap client.var frame.t) (f : frame.t).

Lemma held_insert_fresh frames x f :
  frames !! x = None ->
  client.held (<[x := f]> frames)
  = client.refs (frame.frame_ref f) ⊎ client.held frames.
Proof.
  intros Hx. unfold client.held.
  rewrite map_fold_insert_L; [done| |done].
  intros. multiset_solver.
Qed.

Lemma held_delete frames x f :
  frames !! x = Some f ->
  client.held frames
  = client.refs (frame.frame_ref f) ⊎ client.held (delete x frames).
Proof.
  intros Hx. unfold client.held.
  rewrite (map_fold_delete_L _ _ x f frames); [done| |done].
  intros. multiset_solver.
Qed.

Lemma held_insert_live frames x f f' :
  frames !! x = Some f ->
  client.held (<[x := f']> frames) ⊎ client.refs (frame.frame_ref f)
  = client.refs (frame.frame_ref f') ⊎ client.held frames.
Proof.
  intros Hx. rewrite <- insert_delete_eq.
  rewrite held_insert_fresh by apply lookup_delete_eq.
  rewrite (held_delete frames x f Hx). multiset_solver.
Qed.

Lemma released_app (tr1 tr2 : list event) :
  client.released (tr1 ++ tr2)
  = client.released tr1 ⊎ client.released tr2.
Proof.
  induction tr1 as [|ev tr1 IH]; simpl; [multiset_solver|].
  destruct ev; rewrite ?IH; multiset_solver.
Qed.

Lemma enqueued_app (tr1 tr2 : list event) :
  client.enqueued (tr1 ++ tr2)
  = client.enqueued tr1 ⊎ client.enqueued tr2.
Proof.
  induction tr1 as [|ev tr1 IH]; simpl; [multiset_solver|].
  destruct ev; rewrite ?IH; multiset_solver.
Qed.

Lemma released_release_of f :
  client.released (frame.release_of f) = client.refs (frame.frame_ref f).
Proof.
  unfold frame.release_of. destruct (frame.frame_ref f); simpl;
    multiset_solver.
Qed.

Lemma enqueued_release_of f : client.enqueued (frame.release_of f) = ∅.
Proof. unfold frame.release_of. by destruct (frame.frame_ref f). Qed.
End accounting.

(** Multiset equations between the references held, enqueued and released;
    the lookups that produced them are no longer needed. *)
Ltac balance :=
  repeat match goal with H : _ !! _ = _ |- _ => clear H end;
  simpl in *; multiset_solver.

Section ownership.
Context {N : Type} `{!Native N}.

Lemma dtor_released (f : frame.t) (w : world N) :
  client.released (trace (frame.dtor f w).2)
  = client.released (trace w) ⊎ client.refs (frame.frame_ref f).
Proof. by rewrite dtor_trace, released_app, released_release_of. Qed.

Lemma dtor_enqueued (f : frame.t) (w : world N) :
  client.enqueued (trace (frame.dtor f w).2) = client.enqueued (trace w).
Proof.
  rewrite dtor_trace, enqueued_app, enqueued_release_of. multiset_solver.
Qed.

Lemma dtor_Ok (f : frame.t) (w : world N) :
  frame.dtor f w = (Ok tt, (frame.dtor f w).2).
Proof. by rewrite dtor_spec. Qed.

Lemma exec_balanced (c : client.stmt) (st : client.state N) :
  client.balanced st -> client.balanced (client.exec c st).
Proof.
  destruct st as [fs acq w]. unfold client.balanced, client.exec. simpl.
  intros Hbal. destruct c as [x|x p|x y|x y|x y|x y|q x|x]; simpl.
  - destruct (fs !! x) eqn:Hx; run_monad.
    + balance.
    + rewrite held_insert_fresh by done. simpl. balance.
  - destruct (fs !! x) eqn:Hx; run_monad.
    + balance.
    + rewrite held_insert_fresh by done. simpl. balance.
  - destruct (fs !! x) eqn:Hx, (fs !! y) as [Y|] eqn:Hy; run_monad;
      try balance.
    rewrite held_insert_fresh
      by (rewrite lookup_insert_ne; [done|congruence]).
    pose proof (held_insert_live fs y Y {| frame.frame_ref := None |} Hy).
    simpl in *. balance.
  - destruct (fs !! x) as [X0|] eqn:Hx, (fs !! y) as [Y|] eqn:Hy; run_monad;
      try balance.
    pose proof (held_insert_live fs y Y {| frame.frame_ref := None |} Hy)
      as Hy'.
    destruct (<[y:={| frame.frame_ref := None |}]> fs !! x) as [X|] eqn:Hx'.
    2:{ rewrite lookup_insert in Hx'. case_decide; congruence. }
    rewrite assign_spec. simpl.
    pose proof (held_insert_live _ x X
                  (frame.of_ref (frame.frame_ref Y)) Hx') as Hx''.
    rewrite dtor_released, dtor_enqueued. simpl in *. balance.
  - destruct (fs !! x) as [X|] eqn:Hx, (fs !! y) as [Y|] eqn:Hy; run_monad;
      try balance.
    pose proof (held_insert_live fs x X
                  {| frame.frame_ref := frame.frame_ref Y |} Hx) as Hx'.
    destruct (<[x:={| frame.frame_ref := frame.frame_ref Y |}]> fs !! y)
      as [Y'|] eqn:Hy'.
    2:{ rewrite lookup_insert in Hy'. case_decide; congruence. }
    pose proof (held_insert_live _ y Y'
                  {| frame.frame_ref := frame.frame_ref X |} Hy') as Hy''.
    rewrite lookup_insert in Hy'. case_decide as Hxy.
    + injection Hy' as <-. subst y. replace Y with X in * by congruence.
      balance.
    + replace Y' with Y in * by congruence. balance.
  - destruct (fs !! x) as [X|] eqn:Hx, (fs !! y) as [Y|] eqn:Hy; run_monad;
      try balance.
    unfold frame.try_clone_ref. run_monad.
    destruct (rs_clone_frame_ref (frame.frame_ref X) (native w))
      as [[s [err|]] n]; simpl.
    + rewrite !released_app, !enqueued_app. balance.
    + destruct s as [r|]; simpl.
      * fold (@mret (M N) _ frame.t). rewrite assign_spec. simpl.
        pose proof (held_insert_live fs y Y (frame.of_ref (Some r)) Hy).
        rewrite dtor_released, dtor_enqueued. simpl.
        rewrite !released_app, !enqueued_app. balance.
      * rewrite insert_id by done.
        rewrite !released_app, !enqueued_app. balance.
  - destruct (fs !! x) as [X|] eqn:Hx; run_monad; [|balance].
    pose proof (held_insert_live fs x X {| frame.frame_ref := None |} Hx).
    rewrite !released_app, !enqueued_app. balance.
  - destruct (fs !! x) as [X|] eqn:Hx; run_monad; [|balance].
    rewrite (dtor_Ok X w). simpl.
    rewrite (held_delete fs x X Hx) in Hbal.
    rewrite dtor_released, dtor_enqueued. balance.
Qed.
End ownership.

Section runs.
Context {N : Type} `{!Native N}.

(** Only [try_clone_ref] can throw, so a statement that throws has not yet
    touched a frame. *)
Lemma effect_throws_only_in_clone (c : client.stmt)
    (fs : gmap client.var frame.t) (w w' : world N) (x : exn) :
  client.effect c fs w = (Throw x, w') ->
  exists a b : client.var, c = client.TryCloneRef a b.
Proof.
  destruct c as [a|a p|a b|a b|a b|a b|q a|a]; simpl; eauto.
  - by destruct (fs !! a).
  - by destruct (fs !! a).
  - by destruct (fs !! a), (fs !! b).
  - destruct (fs !! a), (fs !! b) as [Y|]; try done. simpl.
    destruct (_ !! a) as [X|]; [|done].
    unfold mbind, M_bind. by rewrite assign_spec.
  - by destruct (fs !! a), (fs !! b).
  - by destruct (fs !! a).
  - destruct (fs !! a) as [X|]; [|done].
    unfold mbind, M_bind. by rewrite (dtor_Ok X).
Qed.

Lemma run_balanced (prog : list client.stmt) (st : client.state N) :
  client.balanced st -> client.balanced (client.run prog st).
Proof.
  revert st. induction prog as [|c prog IH]; intros st Hbal; [done|].
  apply IH, exec_balanced, Hbal.
Qed.

Lemma initial_balanced (n : N) : client.balanced (client.initial n).
Proof. unfold client.balanced. simpl. multiset_solver. Qed.

(** Destroying frames removes them from the program and takes charge of
    no reference. *)
Lemma exec_destroy (x : client.var) (st : client.state N) :
  client.frames (client.exec (client.Destroy x) st)
  = delete x (client.frames st)
  /\ client.acquired (client.exec (client.Destroy x) st)
     = client.acquired st.
Proof.
  unfold client.exec. simpl.
  destruct (client.frames st !! x) as [X|] eqn:Hx; run_monad.
  - rewrite (dtor_Ok X). simpl. split; [done|multiset_solver].
  - rewrite delete_id by done. split; [done|multiset_solver].
Qed.

Lemma run_destroy (xs : list client.var) (st : client.state N) :
  client.frames (client.run (client.Destroy <$> xs) st)
  = foldl (fun m x => delete x m) (client.frames st) xs
  /\ client.acquired (client.run (client.Destroy <$> xs) st)
     = client.acquired st.
Proof.
  revert st. induction xs as [|x xs IH]; intros st; [done|].
  change (client.run (client.Destroy <$> x :: xs) st)
    with (client.run (client.Destroy <$> xs)
            (client.exec (client.Destroy x) st)).
  destruct (IH (client.exec (client.Destroy x) st)) as [-> ->].
  by destruct (exec_destroy x st) as [-> ->].
Qed.

Lemma lookup_foldl_delete (xs : list client.var)
    (m : gmap client.var frame.t) (i : client.var) :
  foldl (fun m x => delete x m) m xs !! i = None
  <-> i ∈ xs \/ m !! i = None.
Proof.
  revert m. induction xs as [|x xs IH]; intros m; simpl.
  - rewrite elem_of_nil. tauto.
  - rewrite IH, lookup_delete_None, elem_of_cons. intuition congruence.
Qed.

Lemma unwind_frames (st : client.state N) :
  client.frames (client.unwind st) = ∅.
Proof.
  unfold client.unwind. destruct (run_destroy
    (map_to_list (client.frames st)).*1 st) as [-> _].
  apply map_eq. intros i. rewrite lookup_empty.
  apply lookup_foldl_delete.
  destruct (client.frames st !! i) as [f|] eqn:Hi; [left|by right].
  apply list_elem_of_fmap. exists (i, f).
  split; [done|]. by apply elem_of_map_to_list.
Qed.

Lemma unwind_acquired (st : client.state N) :
  client.acquired (client.unwind st) = client.acquired st.
Proof. unfold client.unwind. apply run_destroy. Qed.

Lemma held_empty : client.held ∅ = ∅.
Proof. apply map_fold_empty. Qed.
End runs.

(** C8: a frame holds one native reference or none.  Its destructor
    returns normally and calls [rs_release_frame] once when the frame
    holds a reference and not at all when it holds none; an assignment
    releases, once, the reference the assigned frame held and makes it hold
    the reference of its argument.  Along every program built from
    construction, move construction, move assignment, swap,
    [try_clone_ref], [enqueue] and destruction, where names may alias and
    [try_clone_ref] may throw, every reference a frame took charge of is,
    counted with multiplicity, held by a live frame, handed to a queue or
    released.  So when every live frame has been destroyed, on a return
    or on unwinding, each reference taken in charge and not handed to a
    queue has been released exactly as many times as it was taken in
    charge. *)
Theorem frame_reference_released_exactly_once {N : Type} `{!Native N} :
  (forall (f : frame.t) (w : world N),
     frame.dtor f w = (Ok tt, (frame.dtor f w).2)
     /\ trace (frame.dtor f w).2 = trace w ++ frame.release_of f)
  /\ (forall (this other : frame.t) (w : world N),
        exists w' : world N,
          frame.assign this other w
          = (Ok (frame.of_ref (frame.frame_ref other)), w')
          /\ trace w' = trace w ++ frame.release_of this)
  /\ (forall (prog : list client.stmt) (n : N),
        client.balanced (client.run prog (client.initial n)))
  /\ (forall (prog : list client.stmt) (n : N) (r : rs_frame),
        client.frames (client.unwind (client.run prog (client.initial n)))
        = ∅
        /\ multiplicity r
             (client.acquired (client.run prog (client.initial n)))
           = (multiplicity r
                (client.enqueued
                   (trace (client.the_world
                      (client.unwind (client.run prog (client.initial n))))))
              + multiplicity r
                  (client.released
                     (trace (client.the_world
                        (client.unwind
                           (client.run prog (client.initial n)))))))%nat).
Proof.
  split; [|split; [|split]].
  - intros f w. split; [apply dtor_Ok|apply dtor_trace].
  - intros this other w. eexists. split; [apply assign_spec|].
    apply dtor_trace.
  - intros prog n. apply run_balanced, initial_balanced.
  - intros prog n r. split; [apply unwind_frames|].
    pose proof (run_balanced
      (client.Destroy <$> (map_to_list (client.frames
         (client.run prog (client.initial n)))).*1)
      _ (run_balanced prog _ (initial_balanced n))) as Hbal.
    fold (client.unwind (client.run prog (client.initial n))) in Hbal.
    unfold client.balanced in Hbal.
    rewrite unwind_frames, held_empty, unwind_acquired in Hbal.
    rewrite Hbal, !multiplicity_disj_union, multiplicity_empty. lia.
Qed.

(** A program with an aliased move, a clone, a swap, an assignment over a
    held reference and an enqueue: of the references 1, 2 (the clone) and
    5, the first is released by the assignment, the second goes to the
    queue and the third is released when the frames go out of scope. *)
Example ownership_run :
  let prog :=
    [client.Wrap 0%nat (Some 1%nat); client.Default 1%nat;
     client.MoveAssign 1%nat 0%nat; client.MoveAssign 1%nat 1%nat;
     client.TryCloneRef 1%nat 0%nat; client.Swap 0%nat 1%nat;
     client.Wrap 2%nat (Some 5%nat); client.MoveAssign 0%nat 2%nat;
     client.Enqueue sample_queue 1%nat] in
  trace (client.the_world
           (client.unwind (client.run prog (client.initial model.sample))))
  = [call_clone_frame_ref (Some 1%nat) (Some 2%nat);
     call_release_frame (Some 1%nat);
     call_enqueue_frame (Some 2%nat) (Some 0%nat);
     call_release_frame (Some 5%nat)].
Proof. reflexivity. Qed.

(** * Further properties of the binding *)

(** ** frame: try_clone_ref *)

(** X1: [try_clone_ref], for any native library.  When the native call
    reports an error it throws the translated error and [*result] is not
    touched: nothing is released.  When the native call returns a null
    pointer it returns [false], [*result] is unchanged and nothing is
    released.  When it returns a reference, [try_clone_ref] returns
    [true], [*result] holds the new reference and the reference [*result]
    held before is released, once.  The frame that is cloned is only
    read. *)
Theorem try_clone_ref_cases {N : Type} `{!Native N}
    (this result : frame.t) (w : world N) :
  match rs_clone_frame_ref (frame.frame_ref this) (native w) with
  | ((s, Some err), n) =>
      exists x : error_object.t,
        frame.try_clone_ref this result w
        = (Throw (rs_error_exn x),
           World (rs_free_error err n)
             (trace w ++ [call_clone_frame_ref (frame.frame_ref this) s;
                          call_free_error err]))
        /\ error_object.what x = rs_get_error_message err
  | ((None, None), n) =>
      frame.try_clone_ref this result w
      = (Ok (false, result),
         World n (trace w ++ [call_clone_frame_ref (frame.frame_ref this)
                                None]))
  | ((Some r, None), n) =>
      exists w' : world N,
        frame.try_clone_ref this result w
        = (Ok (true, frame.of_ref (Some r)), w')
        /\ trace w'
           = trace w ++ call_clone_frame_ref (frame.frame_ref this) (Some r)
                        :: frame.release_of result
  end.
Proof.
  unfold frame.try_clone_ref. run_monad.
  destruct (rs_clone_frame_ref _ _) as [[[r|] [err|]] n]; simpl.
  - eexists. rewrite <- app_assoc. split; reflexivity.
  - fold (@mret (M N) _ frame.t). rewrite assign_spec. simpl.
    eexists. split; [reflexivity|].
    rewrite dtor_trace. simpl. by rewrite <- app_assoc.
  - eexists. rewrite <- app_assoc. split; reflexivity.
  - done.
Qed.

(** ** frame_queue: poll_for_frame on any native library *)

(** X2: [poll_for_frame], for any native library.  A reported error is
    thrown and [*f] is not touched.  Otherwise, with the status [res] the
    native call returned: when [res] is 0, [*f] is unchanged and the
    result is [false]; when [res] is not 0, [*f] is assigned the polled
    pointer and the reference it held is released, once, and the result
    is [res > 0], so that a negative status replaces [*f] and still
    returns [false]. *)
Theorem poll_for_frame_cases {N : Type} `{!Native N}
    (queue : frame_queue.t) (f : frame.t) (w : world N) :
  match rs_poll_for_frame (frame_queue._queue queue) (native w) with
  | ((res, out, Some err), n) =>
      exists x : error_object.t,
        frame_queue.poll_for_frame queue f w
        = (Throw (rs_error_exn x),
           World (rs_free_error err n)
             (trace w ++ [call_poll_for_frame (frame_queue._queue queue)
                            res out;
                          call_free_error err]))
        /\ error_object.what x = rs_get_error_message err
  | ((res, out, None), n) =>
      exists w' : world N,
        frame_queue.poll_for_frame queue f w
        = (Ok (0 <? res, if res =? 0 then f else frame.of_ref out), w')
        /\ trace w'
           = trace w ++ call_poll_for_frame (frame_queue._queue queue)
                          res out
                        :: (if res =? 0 then [] else frame.release_of f)
  end.
Proof.
  destruct (rs_poll_for_frame _ _) as [[[res out] [err|]] n] eqn:Hcall.
  - unfold frame_queue.poll_for_frame. run_monad. rewrite Hcall. simpl.
    eexists. rewrite <- app_assoc. split; reflexivity.
  - rewrite (poll_for_frame_spec queue f w res out n Hcall).
    destruct (Z.eqb_spec res 0) as [->|Hres].
    + eexists. split; reflexivity.
    + eexists. split; [reflexivity|].
      rewrite dtor_trace. simpl. by rewrite <- app_assoc.
Qed.

(** ** frame: self-move-assignment *)

(** X3: [x = std::move(x)] on a live frame leaves it holding the
    reference it held and makes no native call: in particular nothing is
    released. *)
Theorem self_move_assign_is_identity {N : Type} `{!Native N}
    (frames : gmap client.var frame.t) (x : client.var) (X : frame.t)
    (w : world N) :
  frames !! x = Some X ->
  client.effect (client.MoveAssign x x) frames w = (Ok (frames, ∅), w).
Proof.
  intros Hx. simpl. rewrite Hx. simpl. rewrite lookup_insert_eq.
  erewrite bind_Ok by apply assign_spec. simpl.
  rewrite insert_insert_eq. destruct X as [r]. simpl.
  by rewrite insert_id.
Qed.

Lemma self_move_assign_is_identity_witness :
  @client.effect _ mock (client.MoveAssign 0%nat 0%nat)
    {[ 0%nat := frame.of_ref (Some 7%nat) ]} sample_world
  = (Ok ({[ 0%nat := frame.of_ref (Some 7%nat) ]}, ∅), sample_world).
Proof.
  apply (@self_move_assign_is_identity _ mock
           {[ 0%nat := frame.of_ref (Some 7%nat) ]} 0%nat
           (frame.of_ref (Some 7%nat)) sample_world).
  reflexivity.
Defined.

(** ** frame_callback *)

(** X4: a frame queue installed as the callback of a stream hands every
    delivered frame to the native queue: [on_frame] makes one native call,
    [rs_enqueue_frame] with the delivered pointer, returns normally and
    releases nothing. *)
Theorem callback_into_queue {N : Type} `{!Native N}
    (queue : frame_queue.t) (fref : option rs_frame) (w : world N) :
  frame_callback.on_frame (frame_callback.queue_operator queue) fref w
  = (Ok tt,
     World (rs_enqueue_frame fref (frame_queue._queue queue) (native w))
       (trace w ++ [call_enqueue_frame fref (frame_queue._queue queue)]))
  /\ client.released
       (trace (frame_callback.on_frame
                 (frame_callback.queue_operator queue) fref w).2)
     = client.released (trace w).
Proof.
  split; [reflexivity|]. simpl. rewrite released_app. simpl.
  multiset_solver.
Qed.

(** X5: a callback that uses the delivered frame where it is: whatever it
    does and whether it returns or throws, [on_frame] ends as the callback
    ends and then releases the delivered reference, once when the pointer
    is not null. *)
Theorem callback_in_place_releases {N : Type} `{!Native N}
    (body : frame.t -> M N unit) (fref : option rs_frame) (w : world N) :
  (frame_callback.on_frame (frame_callback.in_place body) fref w).1
  = (body (frame.of_ref fref) w).1
  /\ trace (frame_callback.on_frame (frame_callback.in_place body) fref w).2
     = trace (body (frame.of_ref fref) w).2
       ++ match fref with
          | Some r => [call_release_frame (Some r)]
          | None => []
          end.
Proof.
  unfold frame_callback.on_frame, frame_callback.in_place.
  destruct (body (frame.of_ref fref) w) as [r w'] eqn:Hbody.
  rewrite (dtor_Ok (frame.of_ref fref) w'). simpl. split; [done|].
  rewrite dtor_trace. by destruct fref.
Qed.

(** ** device: what the constructor does *)

Section ctor_more.
Context {N : Type} `{!Native N}.

Lemma probe_Throw (dev : option rs_device) (i : Z)
    (subdevices : list (option subdevice.t)) (w w' : world N) (x : exn) :
  device.probe dev i subdevices w = (Throw x, w') ->
  exists (r : Z) (err : rs_error),
    trace w' = trace w ++ [call_is_subdevice_supported dev i r;
                           call_free_error err]
    /\ x = rs_error_exn
             {| error_object.what := rs_get_error_message err;
                error_object.function :=
                  default EmptyString (rs_get_failed_function err);
                error_object.args :=
                  default EmptyString (rs_get_failed_args err) |}.
Proof.
  unfold device.probe. run_monad.
  destruct (rs_is_subdevice_supported dev i (native w)) as [[r [err|]] n];
    simpl.
  - intros [= <- <-]. exists r, err. by rewrite <- app_assoc.
  - by destruct (r =? 0).
Qed.

Lemma probe_events_app (dev : option rs_device) (rs1 rs2 : list Z) (s : Z) :
  device.probe_events dev s (rs1 ++ rs2)
  = device.probe_events dev s rs1
    ++ device.probe_events dev (s + Z.of_nat (length rs1)) rs2.
Proof.
  revert s. induction rs1 as [|r rs1 IH]; intros s; simpl.
  - by rewrite Z.add_0_r.
  - rewrite IH. do 3 f_equal. lia.
Qed.

(** A failing probe ends the loop of the constructor. *)
Lemma probe_loop_Throw (dev : option rs_device) (kinds : list Z)
    (subdevices : list (option subdevice.t)) (w w' : world N) (x : exn)
    (first : Z) :
  kinds = seqZ first (Z.of_nat (length kinds)) ->
  for_each (device.probe dev) kinds subdevices w = (Throw x, w') ->
  exists (rs : list Z) (r : Z) (err : rs_error),
    (length rs < length kinds)%nat
    /\ trace w'
       = trace w ++ device.probe_events dev first (rs ++ [r])
         ++ [call_free_error err]
    /\ x = rs_error_exn
             {| error_object.what := rs_get_error_message err;
                error_object.function :=
                  default EmptyString (rs_get_failed_function err);
                error_object.args :=
                  default EmptyString (rs_get_failed_args err) |}.
Proof.
  revert subdevices w first.
  induction kinds as [|k kinds IH]; intros subdevices w first Hkinds;
    [done|].
  simpl length in Hkinds. rewrite seqZ_cons in Hkinds by lia.
  injection Hkinds as -> Hkinds.
  replace (Z.pred (Z.of_nat (S (length kinds))))
    with (Z.of_nat (length kinds)) in Hkinds by lia.
  simpl for_each. unfold mbind, M_bind.
  destruct (device.probe dev first subdevices w) as [[subs1|x1] w1]
    eqn:Hprobe.
  - apply probe_Ok in Hprobe as (r1 & _ & Htr1).
    intros (rs & r & err & Hlen & Htr & ->)%(IH _ _ (Z.succ first) Hkinds).
    exists (r1 :: rs), r, err. split; [simpl; lia|]. split; [|done].
    rewrite Htr, Htr1, <- app_assoc. simpl.
    by replace (first + 1) with (Z.succ first) by lia.
  - intros [= <- <-].
    apply probe_Throw in Hprobe as (r & err & Htr & ->).
    exists [], r, err. split; [simpl; lia|]. split; [|done].
    rewrite Htr. simpl. done.
Qed.
End ctor_more.

(** X6: a successful construction of a device asks the native library
    exactly once about each subdevice kind, in ascending order of kind,
    and makes no other native call; the device keeps the handle it was
    given, its table has one slot per kind, and it supports the kind [s]
    exactly when the answer for [s] was not 0. *)
Theorem ctor_probes_every_kind_once {N : Type} `{!Native N}
    (dev : option rs_device) (this : device.t) (w0 w1 : world N) :
  device.ctor dev w0 = (Ok this, w1) ->
  exists answers : list Z,
    length answers = Z.to_nat RS_SUBDEVICE_COUNT
    /\ events_since w0 w1
       = zip_with (call_is_subdevice_supported dev)
           (seqZ 0 RS_SUBDEVICE_COUNT) answers
    /\ device._dev this = dev
    /\ length (device._subdevices this) = Z.to_nat RS_SUBDEVICE_COUNT
    /\ forall (s : nat) (r : Z),
         answers !! s = Some r ->
         device.supports this (Z.of_nat s) = negb (r =? 0).
Proof.
  intros (rs & Hrs & -> & Htr)%ctor_Ok. exists rs.
  split; [done|]. split.
  { unfold events_since. rewrite Htr, drop_app_length.
    destruct rs as [|a [|b [|c [|d [|]]]]]; done. }
  split; [done|]. split; [simpl; by rewrite length_slots|].
  intros s r Hs. rewrite supports_slot. simpl.
  pose proof (lookup_lt_Some _ _ _ Hs) as Hlt. rewrite Hrs in Hlt.
  unfold RS_SUBDEVICE_COUNT in Hlt.
  rewrite length_slots, Hrs, to_size_t_small by lia.
  destruct (Z.ltb_spec (Z.of_nat s) (Z.of_nat (Z.to_nat RS_SUBDEVICE_COUNT)));
    [|unfold RS_SUBDEVICE_COUNT in *; lia].
  rewrite lookup_slots, Nat2Z.id, Hs. simpl.
  unfold device.slot_of. by destruct (r =? 0).
Qed.

Lemma ctor_probes_every_kind_once_witness :
  exists answers : list Z,
    length answers = Z.to_nat RS_SUBDEVICE_COUNT
    /\ events_since sample_world sample_world_after_ctor
       = zip_with (call_is_subdevice_supported (Some 5%nat))
           (seqZ 0 RS_SUBDEVICE_COUNT) answers
    /\ device._dev sample_device = Some 5%nat
    /\ length (device._subdevices sample_device)
       = Z.to_nat RS_SUBDEVICE_COUNT
    /\ forall (s : nat) (r : Z),
         answers !! s = Some r ->
         device.supports sample_device (Z.of_nat s) = negb (r =? 0).
Proof.
  apply (@ctor_probes_every_kind_once _ mock (Some 5%nat) sample_device
           sample_world sample_world_after_ctor).
  reflexivity.
Defined.

(** X7: the construction of a device fails exactly as its first failing
    probe fails: the constructor throws the translation of the native
    error of that probe, after having asked about the kinds up to that one
    in ascending order, once each, and having freed the native error; it
    asks about no later kind. *)
Theorem ctor_stops_at_first_failing_probe {N : Type} `{!Native N}
    (dev : option rs_device) (w0 w1 : world N) (x : exn) :
  device.ctor dev w0 = (Throw x, w1) ->
  exists (answers : list Z) (err : rs_error),
    (0 < length answers <= Z.to_nat RS_SUBDEVICE_COUNT)%nat
    /\ events_since w0 w1
       = zip_with (call_is_subdevice_supported dev)
           (seqZ 0 (Z.of_nat (length answers))) answers
         ++ [call_free_error err]
    /\ x = rs_error_exn
             {| error_object.what := rs_get_error_message err;
                error_object.function :=
                  default EmptyString (rs_get_failed_function err);
                error_object.args :=
                  default EmptyString (rs_get_failed_args err) |}.
Proof.
  unfold device.ctor, mbind, M_bind.
  destruct (for_each _ _ _ w0) as [[subs|x'] w] eqn:Hloop; [done|].
  intros [= <- <-].
  apply (probe_loop_Throw dev _ _ _ _ _ 0) in Hloop
    as (rs & r & err & Hlen & Htr & ->); [|done].
  change (length (seqZ 0 RS_SUBDEVICE_COUNT)) with 4%nat in Hlen.
  exists (rs ++ [r]), err. rewrite length_app. simpl.
  split; [unfold RS_SUBDEVICE_COUNT; lia|]. split; [|done].
  unfold events_since. rewrite Htr, drop_app_length. f_equal.
  destruct rs as [|a [|b [|c [|d [|]]]]]; simpl in *; try done; lia.
Qed.

Lemma ctor_stops_at_first_failing_probe_witness :
  exists (answers : list Z) (err : rs_error),
    (0 < length answers <= Z.to_nat RS_SUBDEVICE_COUNT)%nat
    /\ events_since (World model.broken [])
         (@device.ctor _ mock (Some 5%nat) (World model.broken [])).2
       = zip_with (call_is_subdevice_supported (Some 5%nat))
           (seqZ 0 (Z.of_nat (length answers))) answers
         ++ [call_free_error err]
    /\ rs_error_exn
         {| error_object.what := "device disconnected";
            error_object.function := EmptyString;
            error_object.args := "frame:7" |}
       = rs_error_exn
           {| error_object.what := rs_get_error_message err;
              error_object.function :=
                default EmptyString (rs_get_failed_function err);
              error_object.args :=
                default EmptyString (rs_get_failed_args err) |}.
Proof.
  apply (@ctor_stops_at_first_failing_probe _ mock (Some 5%nat)
           (World model.broken [])
           (@device.ctor _ mock (Some 5%nat) (World model.broken [])).2).
  reflexivity.
Defined.

(** ** subdevice_iterator: operator++ *)

(** X8: from any position below the sentinel, [operator++] terminates (a
    fuel of the distance to the sentinel is enough), keeps the device,
    and lands on the next supported kind above the position, or on the
    sentinel when there is none: every kind it steps over is unsupported,
    and unless it is at the sentinel the iterator it returns can be
    dereferenced without throwing. *)
Theorem incr_lands_on_next_supported {N : Type} (dev : device.t)
    (fuel : nat) (idx : rs_subdevice) (w : world N) :
  idx < RS_SUBDEVICE_COUNT ->
  (Z.to_nat (RS_SUBDEVICE_COUNT - idx) <= fuel)%nat ->
  exists next : rs_subdevice,
    subdevice_iterator.incr fuel
      {| subdevice_iterator._idx := idx; subdevice_iterator._dev := dev |}
    = Some {| subdevice_iterator._idx := next;
              subdevice_iterator._dev := dev |}
    /\ idx < next <= RS_SUBDEVICE_COUNT
    /\ (forall k : Z, idx < k < next -> device.supports dev k = false)
    /\ (next = RS_SUBDEVICE_COUNT
        \/ device.supports dev next = true
           /\ exists sd : subdevice.t,
                subdevice_iterator.deref
                  {| subdevice_iterator._idx := next;
                     subdevice_iterator._dev := dev |} w
                = (Ok sd, w)).
Proof.
  revert idx. induction fuel as [|fuel IH]; intros idx Hidx Hfuel; [lia|].
  simpl.
  destruct (Z.eqb_spec (idx + 1) RS_SUBDEVICE_COUNT) as [Hend|Hend]; simpl.
  { exists (idx + 1). split; [done|].
    split; [lia|]. split; [lia|]. by left. }
  destruct (device.supports dev (idx + 1)) eqn:Hsup; simpl.
  { exists (idx + 1). split; [done|].
    split; [lia|]. split; [lia|]. right. split; [done|].
    unfold subdevice_iterator.deref. simpl.
    rewrite get_subdevice_slot. rewrite supports_slot in Hsup.
    destruct (if to_size_t _ <? _ then _ else _) as [[sd|]|]; [|done..].
    by exists sd. }
  destruct (IH (idx + 1)) as (next & -> & Hnext & Hskip & Hlast);
    [lia|lia|].
  exists next. split; [done|]. split; [lia|]. split; [|done].
  intros k Hk. destruct (decide (k = idx + 1)) as [->|]; [done|].
  apply Hskip. lia.
Qed.

Lemma incr_lands_on_next_supported_witness :
  exists next : rs_subdevice,
    subdevice_iterator.incr 2
      {| subdevice_iterator._idx := RS_SUBDEVICE_FISHEYE;
         subdevice_iterator._dev := sample_device |}
    = Some {| subdevice_iterator._idx := next;
              subdevice_iterator._dev := sample_device |}
    /\ RS_SUBDEVICE_FISHEYE < next <= RS_SUBDEVICE_COUNT
    /\ (forall k : Z,
          RS_SUBDEVICE_FISHEYE < k < next ->
          device.supports sample_device k = false)
    /\ (next = RS_SUBDEVICE_COUNT
        \/ device.supports sample_device next = true
           /\ exists sd : subdevice.t,
                subdevice_iterator.deref
                  {| subdevice_iterator._idx := next;
                     subdevice_iterator._dev := sample_device |}
                  sample_world
                = (Ok sd, sample_world)).
Proof.
  apply (@incr_lands_on_next_supported model.state sample_device 2%nat
           RS_SUBDEVICE_FISHEYE sample_world).
  - unfold RS_SUBDEVICE_FISHEYE, RS_SUBDEVICE_COUNT. lia.
  - vm_compute. lia.
Defined.

(** X9: an iterator at or past the sentinel must not be incremented: on a
    device whose table has no slot beyond the sentinel (the constructor
    builds no other), the loop of [operator++] does not stop while the
    index is an [int], whatever the fuel. *)
Theorem incr_at_end_does_not_stop (dev : device.t) (fuel : nat)
    (idx : rs_subdevice) :
  (length (device._subdevices dev) <= Z.to_nat RS_SUBDEVICE_COUNT)%nat ->
  RS_SUBDEVICE_COUNT <= idx ->
  idx + Z.of_nat fuel < 2 ^ 31 ->
  subdevice_iterator.incr fuel
    {| subdevice_iterator._idx := idx; subdevice_iterator._dev := dev |}
  = None.
Proof.
  intros Hlen. revert idx.
  induction fuel as [|fuel IH]; intros idx Hidx Hint; [done|].
  simpl. unfold RS_SUBDEVICE_COUNT in *.
  destruct (Z.eqb_spec (idx + 1) 4) as [|_]; [lia|]. simpl.
  assert (device.supports dev (idx + 1) = false) as ->.
  { unfold device.supports.
    rewrite to_size_t_small by lia.
    destruct (Z.ltb_spec (idx + 1)
                (Z.of_nat (length (device._subdevices dev)))); [lia|done]. }
  simpl. apply IH; lia.
Qed.

Lemma incr_at_end_does_not_stop_witness :
  subdevice_iterator.incr 1000
    (subdevice_iterator.end_ sample_device)
  = None.
Proof.
  apply (incr_at_end_does_not_stop sample_device 1000 RS_SUBDEVICE_COUNT).
  - vm_compute. lia.
  - lia.
  - vm_compute. reflexivity.
Defined.

(** X10: on a device the constructor has built and that has a color
    sensor, the traversal from [begin] to [end] ends without throwing
    and visits exactly the wrappers of the kinds the device supports, one
    by one in ascending order of kind. *)
Theorem iterate_visits_supported_kinds {N : Type} `{!Native N}
    (dev : option rs_device) (this : device.t) (w0 w1 w : world N)
    (fuel : nat) :
  device.ctor dev w0 = (Ok this, w1) ->
  device.supports this RS_SUBDEVICE_COLOR = true ->
  subdevice_iterator.iterate (5 + fuel) this w
  = (Ok (Some ((fun s => {| subdevice._dev := dev; subdevice._index := s |})
               <$> filter (fun s => device.supports this s)
                     (seqZ 0 RS_SUBDEVICE_COUNT))), w).
Proof.
  intros (rs & Hrs & -> & _)%ctor_Ok Hcolor.
  rewrite iterate_with_color; [|simpl; by rewrite length_slots|done].
  do 3 f_equal. simpl.
  destruct rs as [|a [|b [|c [|d [|]]]]]; try done.
  unfold device.slots, device.slot_of.
  by destruct (a =? 0), (b =? 0), (c =? 0), (d =? 0).
Qed.

Lemma iterate_visits_supported_kinds_witness :
  subdevice_iterator.iterate (5 + 0) full_sample_device sample_world
  = (Ok (Some ((fun s => {| subdevice._dev := Some 5%nat;
                            subdevice._index := s |})
               <$> filter (fun s => device.supports full_sample_device s)
                     (seqZ 0 RS_SUBDEVICE_COUNT))), sample_world).
Proof.
  apply (@iterate_visits_supported_kinds _ mock (Some 5%nat)
           full_sample_device (World model.full_device [])
           (@device.ctor _ mock (Some 5%nat)
              (World model.full_device [])).2
           sample_world 0%nat).
  - reflexivity.
  - reflexivity.
Defined.

(** ** Wrappers on a logged native library *)

Section appends_facts.
Context {N : Type} `{!Native N} `{!NativeRest N}.

Lemma appends_ret {A} (P : native_call -> Prop) (a : A) :
  appends P (mret a : M (logged N) A).
Proof. intros w. exists []. by rewrite app_nil_r. Qed.

Lemma appends_throw {A} (P : native_call -> Prop) (x : exn) :
  appends P (throw x : M (logged N) A).
Proof. intros w. exists []. by rewrite app_nil_r. Qed.

Lemma appends_bind {A B} (P : native_call -> Prop) (m : M (logged N) A)
    (f : A -> M (logged N) B) :
  appends P m -> (forall a, appends P (f a)) -> appends P (m ≫= f).
Proof.
  intros Hm Hf w. unfold mbind, M_bind.
  destruct (Hm w) as (calls1 & Hlog1 & HP1).
  destruct (m w) as [[a|x] w1]; simpl in *; [|by exists calls1].
  destruct (Hf a w1) as (calls2 & Hlog2 & HP2).
  exists (calls1 ++ calls2). rewrite Hlog2, Hlog1, <- app_assoc.
  split; [done|]. by apply Forall_app.
Qed.

Lemma appends_for_each {A S} (P : native_call -> Prop)
    (body : A -> S -> M (logged N) S) (l : list A) (s : S) :
  (forall a s, appends P (body a s)) -> appends P (for_each body l s).
Proof.
  intros Hbody. revert s. induction l as [|a l IH]; intros s; simpl.
  - apply appends_ret.
  - apply appends_bind; [apply Hbody|]. intros s'. apply IH.
Qed.

Lemma appends_weaken {A} (P Q : native_call -> Prop) (m : M (logged N) A) :
  (forall c, P c -> Q c) -> appends P m -> appends Q m.
Proof.
  intros HPQ Hm w. destruct (Hm w) as (calls & Hlog & HP).
  exists calls. split; [done|]. by eapply Forall_impl.
Qed.

Lemma appends_call_rest {A} (P : native_call -> Prop) (f : N -> A * N)
    (ev : A -> native_call) :
  (forall a, P (ev a)) -> appends P (call_rest f ev).
Proof.
  intros HP w. unfold call_rest, logging.
  destruct (f (state (native w))) as [a n]. simpl.
  exists [ev a]. split; [done|]. by constructor.
Qed.

Lemma appends_call_rest_void (P : native_call -> Prop) (f : N -> N)
    (ev : native_call) :
  P ev -> appends P (call_rest_void f ev).
Proof. intros HP w. exists [ev]. split; [done|]. by constructor. Qed.

Lemma appends_handle (e : option rs_error) :
  appends is_base (error.handle e : M (logged N) unit).
Proof.
  intros w. destruct e as [err|]; simpl.
  - exists [base_call (call_free_error err)]. split; [done|].
    constructor; [by eexists|done].
  - exists []. by rewrite app_nil_r.
Qed.

Lemma appends_probe (dev : option rs_device) (i : Z)
    (subdevices : list (option subdevice.t)) :
  appends is_base (device.probe dev i subdevices : M (logged N) _).
Proof.
  unfold device.probe. apply appends_bind.
  - intros w. unfold call. simpl. unfold logging.
    destruct (rs_is_subdevice_supported dev i (state (native w)))
      as [[r e] n]. simpl.
    eexists [_]. split; [done|]. constructor; [by eexists|done].
  - intros [r e]. apply appends_bind; [apply appends_handle|].
    intros _. destruct (r =? 0); apply appends_ret.
Qed.

(** The constructor of a device calls functions of [Native] only. *)
Lemma appends_ctor (dev : option rs_device) :
  appends is_base (device.ctor dev : M (logged N) device.t).
Proof.
  unfold device.ctor. apply appends_bind.
  - apply appends_for_each. intros i s. apply appends_probe.
  - intros subdevices. apply appends_ret.
Qed.

End appends_facts.

(** ** subdevice: open with several profiles *)

Section open_facts.
Context {N : Type} `{!Native N} `{!NativeRest N}.

Lemma marshal_from (profiles : list stream_profile.t)
    (formats widths heights fpss streams : list Z) :
  foldl (fun '(formats, widths, heights, fpss, streams) p =>
           (formats ++ [stream_profile.format p],
            widths ++ [stream_profile.width p],
            heights ++ [stream_profile.height p],
            fpss ++ [stream_profile.fps p],
            streams ++ [stream_profile.stream p]))
    (formats, widths, heights, fpss, streams) profiles
  = (formats ++ (stream_profile.format <$> profiles),
     widths ++ (stream_profile.width <$> profiles),
     heights ++ (stream_profile.height <$> profiles),
     fpss ++ (stream_profile.fps <$> profiles),
     streams ++ (stream_profile.stream <$> profiles)).
Proof.
  revert formats widths heights fpss streams.
  induction profiles as [|p profiles IH]; intros; simpl.
  - by rewrite !app_nil_r.
  - rewrite IH. by rewrite <- !app_assoc.
Qed.

Lemma marshal_spec (profiles : list stream_profile.t) :
  subdevice_streams.marshal profiles
  = (stream_profile.format <$> profiles,
     stream_profile.width <$> profiles,
     stream_profile.height <$> profiles,
     stream_profile.fps <$> profiles,
     stream_profile.stream <$> profiles).
Proof. unfold subdevice_streams.marshal. by rewrite marshal_from. Qed.
End open_facts.

(** X11: [open] with a vector of profiles passes to [rs_open_many] five
    arrays as long as the vector, whose elements at each index are the
    stream, width, height, fps and format of the profile at that index,
    and the size of the vector converted to [int].  When the native call
    reports no error the returned lock holds the native handle and
    [rs_close] is not called; when it reports an error, [open] throws the
    translated error after [rs_close] has been called once on the pointer
    the native call returned, null or not. *)
Theorem open_marshals_and_closes_on_failure
    {N : Type} `{!Native N} `{!NativeRest N}
    (this : subdevice.t) (profiles : list stream_profile.t)
    (w : world (logged N)) :
  match
    rs_open_many (subdevice._dev this) (subdevice._index this)
      (stream_profile.stream <$> profiles)
      (stream_profile.width <$> profiles)
      (stream_profile.height <$> profiles)
      (stream_profile.fps <$> profiles)
      (stream_profile.format <$> profiles)
      (to_int (Z.of_nat (length profiles))) (state (native w))
  with
  | ((lock, e), n) =>
      exists w' : world (logged N),
        log (native w')
        = log (native w)
          ++ call_open_many (subdevice._dev this) (subdevice._index this)
               (stream_profile.stream <$> profiles)
               (stream_profile.width <$> profiles)
               (stream_profile.height <$> profiles)
               (stream_profile.fps <$> profiles)
               (stream_profile.format <$> profiles)
               (to_int (Z.of_nat (length profiles))) lock
             :: match e with
                | None => []
                | Some err =>
                    [base_call (call_free_error err); call_close lock]
                end
        /\ subdevice_streams.open this profiles w
           = (match e with
              | None => Ok {| streaming_lock._lock := lock |}
              | Some err =>
                  Throw (rs_error_exn
                    {| error_object.what := rs_get_error_message err;
                       error_object.function :=
                         default EmptyString (rs_get_failed_function err);
                       error_object.args :=
                         default EmptyString (rs_get_failed_args err) |})
              end, w')
  end.
Proof.
  unfold subdevice_streams.open. rewrite marshal_spec.
  unfold mbind, M_bind, call_rest, logging. simpl.
  destruct (rs_open_many _ _ _ _ _ _ _ _ _) as [[lock [err|]] n]; simpl.
  - eexists. split; [|reflexivity]. simpl. by rewrite <- ?app_assoc.
  - eexists. split; [|reflexivity]. done.
Qed.

(** ** subdevice: get_stream_modes *)

Section stream_modes_facts.
Context {N : Type} `{!Native N} `{!NativeRest N}.

Lemma get_mode_Ok (modes_list : option rs_stream_modes_list) (i : Z)
    (results results' : list stream_profile.t) (w w' : world (logged N)) :
  subdevice_streams.get_mode modes_list i results w = (Ok results', w') ->
  exists outs : Z * Z * Z * Z * Z,
    results' = results ++ [profile_of outs]
    /\ log (native w')
       = log (native w) ++ [call_get_stream_mode modes_list i outs].
Proof.
  unfold subdevice_streams.get_mode, mbind, M_bind, call_rest, logging.
  simpl.
  destruct (rs_get_stream_mode modes_list i (state (native w)))
    as [[[[[[o1 o2] o3] o4] o5] [err|]] n]; simpl; [done|].
  intros [= <- <-]. by exists (o1, o2, o3, o4, o5).
Qed.

Lemma get_modes_Ok (modes_list : option rs_stream_modes_list)
    (indices : list Z) (results results' : list stream_profile.t)
    (w w' : world (logged N)) :
  for_each (subdevice_streams.get_mode modes_list) indices results w
  = (Ok results', w') ->
  exists written : list (Z * Z * Z * Z * Z),
    length written = length indices
    /\ results' = results ++ (profile_of <$> written)
    /\ log (native w')
       = log (native w)
         ++ zip_with (call_get_stream_mode modes_list) indices written.
Proof.
  revert results w. induction indices as [|i indices IH]; intros results w.
  - simpl. intros [= <- <-]. exists []. by rewrite !app_nil_r.
  - simpl for_each. unfold mbind, M_bind.
    destruct (subdevice_streams.get_mode modes_list i results w)
      as [[results1|x] w1] eqn:Hmode; [|done].
    apply get_mode_Ok in Hmode as (outs & -> & Hlog1).
    intros (written & Hlen & -> & Hlog)%IH.
    exists (outs :: written). simpl. split; [by rewrite Hlen|].
    rewrite <- app_assoc. split; [done|].
    by rewrite Hlog, Hlog1, <- app_assoc.
Qed.

Lemma appends_get_mode (P : native_call -> Prop)
    (modes_list : option rs_stream_modes_list) (i : Z)
    (results : list stream_profile.t) :
  (forall c, is_base c -> P c) ->
  (forall outs, P (call_get_stream_mode modes_list i outs)) ->
  appends P (subdevice_streams.get_mode modes_list i results).
Proof.
  intros Hbase Hmode. unfold subdevice_streams.get_mode.
  apply appends_bind; [by apply appends_call_rest|].
  intros [[[[[o1 o2] o3] o4] o5] e].
  apply appends_bind; [|intros; apply appends_ret].
  eapply appends_weaken; [apply Hbase|apply appends_handle].
Qed.
End stream_modes_facts.

(** X12: [get_stream_modes] deletes the list of modes it obtained exactly
    once on every path, whether it returns or throws: the call of
    [rs_delete_modes_list] is the last native call it makes, it is made
    on the pointer that [rs_get_stream_modes] returned, null or not, and
    no other call of it is made. *)
Theorem get_stream_modes_deletes_list_once
    {N : Type} `{!Native N} `{!NativeRest N}
    (this : subdevice.t) (w : world (logged N)) :
  exists (modes_list : option rs_stream_modes_list)
         (calls : list native_call),
    log (native (subdevice_streams.get_stream_modes this w).2)
    = log (native w)
      ++ call_get_stream_modes (subdevice._dev this) (subdevice._index this)
           modes_list
         :: calls ++ [call_delete_modes_list modes_list]
    /\ Forall (fun c => forall p, c <> call_delete_modes_list p) calls.
Proof.
  unfold subdevice_streams.get_stream_modes.
  unfold mbind at 1. unfold M_bind at 1. unfold call_rest at 1.
  unfold logging. simpl.
  destruct (rs_get_stream_modes _ _ _) as [[modes_list e] n]. simpl.
  exists modes_list.
  match goal with
  | |- context [scoped ?d ?b ?w0] =>
      assert (appends (fun c => forall p, c <> call_delete_modes_list p) b)
        as Hbody; [|destruct (Hbody w0) as (calls & Hlog & Hcalls);
                     exists calls; split; [|done];
                     unfold scoped; destruct (b w0) as [r w1]; simpl in *;
                     rewrite Hlog; simpl; by rewrite <- !app_assoc]
  end.
  assert (forall c, is_base c -> forall p, c <> call_delete_modes_list p)
    as Hbase by (by intros c [ev ->] p).
  apply appends_bind.
  { eapply appends_weaken; [apply Hbase|apply appends_handle]. }
  intros _. apply appends_bind; [by apply appends_call_rest|].
  intros [size e']. apply appends_bind.
  { eapply appends_weaken; [apply Hbase|apply appends_handle]. }
  intros _. apply appends_for_each. intros i results.
  by apply appends_get_mode.
Qed.

(** X13: when [get_stream_modes] returns, it has asked for the number
    [size] of modes once and then for each mode of index 0 up to
    [size - 1], once and in this order, and made no other query; its
    result has [size] profiles (none when [size] is not positive), the
    profile at each index holding, as stream, width, height, fps and
    format, the five values the native call wrote for that index. *)
Theorem get_stream_modes_decodes
    {N : Type} `{!Native N} `{!NativeRest N}
    (this : subdevice.t) (results : list stream_profile.t)
    (w w' : world (logged N)) :
  subdevice_streams.get_stream_modes this w = (Ok results, w') ->
  exists (modes_list : option rs_stream_modes_list) (size : Z)
         (written : list (Z * Z * Z * Z * Z)),
    length written = Z.to_nat size
    /\ results = profile_of <$> written
    /\ log (native w')
       = log (native w)
         ++ [call_get_stream_modes (subdevice._dev this)
               (subdevice._index this) modes_list;
             call_get_modes_count modes_list size]
         ++ zip_with (call_get_stream_mode modes_list) (seqZ 0 size) written
         ++ [call_delete_modes_list modes_list].
Proof.
  unfold subdevice_streams.get_stream_modes.
  unfold mbind at 1. unfold M_bind at 1. unfold call_rest at 1.
  unfold logging. simpl.
  destruct (rs_get_stream_modes _ _ _) as [[modes_list e] n]. simpl.
  unfold scoped.
  match goal with
  | |- context [let '(_, _) := ?b ?w0 in _] =>
      destruct (b w0) as [r w1] eqn:Hbody
  end.
  simpl. intros [= -> <-]. revert Hbody.
  destruct e as [err|]; [done|].
  erewrite bind_Ok by reflexivity.
  unfold mbind at 1. unfold M_bind at 1. unfold call_rest at 1.
  unfold logging. simpl.
  destruct (rs_get_modes_count _ _) as [[size e] n']. simpl.
  destruct e as [err|]; [done|].
  erewrite bind_Ok by reflexivity.
  intros (written & Hlen & -> & Hlog)%get_modes_Ok.
  exists modes_list, size, written.
  split; [by rewrite Hlen, length_seqZ|]. split; [done|].
  simpl. rewrite Hlog. simpl. by rewrite <- !app_assoc.
Qed.

Lemma get_stream_modes_decodes_witness :
  exists (modes_list : option rs_stream_modes_list) (size : Z)
         (written : list (Z * Z * Z * Z * Z)),
    length written = Z.to_nat size
    /\ profile_of <$> sample_modes = profile_of <$> written
    /\ log (native
              (@subdevice_streams.get_stream_modes _ mock mock_rest
                 {| subdevice._dev := Some 5%nat;
                    subdevice._index := RS_SUBDEVICE_DEPTH |}
                 (World (Logged model.sample []) [])).2)
       = log (native (World (Logged model.sample []) []))
         ++ [call_get_stream_modes (Some 5%nat) RS_SUBDEVICE_DEPTH
               modes_list;
             call_get_modes_count modes_list size]
         ++ zip_with (call_get_stream_mode modes_list) (seqZ 0 size) written
         ++ [call_delete_modes_list modes_list].
Proof.
  apply (@get_stream_modes_decodes _ mock mock_rest
           {| subdevice._dev := Some 5%nat;
              subdevice._index := RS_SUBDEVICE_DEPTH |}
           (profile_of <$> sample_modes)
           (World (Logged model.sample []) [])
           (@subdevice_streams.get_stream_modes _ mock mock_rest
              {| subdevice._dev := Some 5%nat;
                 subdevice._index := RS_SUBDEVICE_DEPTH |}
              (World (Logged model.sample []) [])).2).
  reflexivity.
Defined.

(** ** context: query_devices *)

Section query_devices_facts.
Context {N : Type} `{!Native N} `{!NativeRest N}.

Lemma created_app (calls1 calls2 : list native_call) :
  created (calls1 ++ calls2) = created calls1 ++ created calls2.
Proof. apply bind_app. Qed.

Lemma deleted_app (calls1 calls2 : list native_call) :
  deleted (calls1 ++ calls2) = deleted calls1 ++ deleted calls2.
Proof. apply bind_app. Qed.

Lemma created_base (calls : list native_call) :
  Forall is_base calls -> created calls = [] /\ deleted calls = [].
Proof.
  induction 1 as [|c calls [ev ->] _ [IH1 IH2]]; [done|].
  unfold created, deleted in *. rewrite !bind_cons. by rewrite IH1, IH2.
Qed.

Lemma deleted_delete_devices (devs : list (option rs_device)) :
  deleted (call_delete_device <$> devs) = devs
  /\ created (call_delete_device <$> devs) = [].
Proof.
  induction devs as [|d devs [IH1 IH2]]; [done|].
  unfold created, deleted in *. rewrite fmap_cons, !bind_cons.
  by rewrite IH1, IH2.
Qed.

Lemma destroy_devices_spec (results : list device.t) (w : world (logged N)) :
  exists w' : world (logged N),
    context.destroy_devices results w = (Ok tt, w')
    /\ log (native w')
       = log (native w) ++ (call_delete_device <$> (device._dev <$> results)).
Proof.
  unfold context.destroy_devices. revert w.
  induction results as [|d results IH]; intros w.
  - exists w. by rewrite app_nil_r.
  - simpl for_each. erewrite bind_Ok by reflexivity.
    destruct (IH (World (logging_void (rs_delete_device (device._dev d))
                           (call_delete_device (device._dev d)) (native w))
                    (trace w))) as (w' & -> & Hlog).
    exists w'. split; [done|]. rewrite Hlog. simpl.
    by rewrite <- app_assoc.
Qed.

(** One turn of the loop: the device that goes into [results] holds the
    handle that was created; when the turn throws, that handle has been
    deleted. *)
Lemma create_one_spec (device_list : option rs_device_list) (i : Z)
    (results : list device.t) (w : world (logged N)) :
  exists (dev : option rs_device) (calls : list native_call),
    Forall is_base calls
    /\ match context.create_one device_list i results w with
       | (Ok results', w') =>
           exists rs_dev : device.t,
             results' = results ++ [rs_dev]
             /\ device._dev rs_dev = dev
             /\ log (native w')
                = log (native w)
                  ++ call_create_device device_list i dev :: calls
       | (Throw x, w') =>
           log (native w')
           = log (native w)
             ++ call_create_device device_list i dev
                :: calls ++ [call_delete_device dev]
       end.
Proof.
  unfold context.create_one.
  unfold mbind at 1. unfold M_bind at 1. unfold call_rest at 1.
  unfold logging. simpl.
  destruct (rs_create_device device_list i (state (native w)))
    as [[dev e] n]. simpl.
  exists dev. unfold shared_with_result.
  destruct e as [err|].
  - erewrite bind_Throw by reflexivity. simpl.
    exists [base_call (call_free_error err)].
    split; [constructor; [by eexists|done]|].
    by rewrite <- !app_assoc.
  - erewrite bind_Ok by reflexivity.
    match goal with
    | |- context [(device.ctor dev ≫= _) ?w0] =>
        destruct (appends_ctor dev w0) as (calls & Hlog & Hcalls);
        destruct (device.ctor dev w0) as [[rs_dev|x] w1] eqn:Hctor
    end.
    + erewrite bind_Ok by exact Hctor. simpl.
      exists calls. split; [done|]. exists rs_dev. split; [done|].
      apply ctor_Ok in Hctor as (rs & _ & -> & _). split; [done|].
      simpl in Hlog. rewrite Hlog. simpl. by rewrite <- app_assoc.
    + erewrite bind_Throw by exact Hctor. simpl.
      exists calls. split; [done|].
      simpl in Hlog. rewrite Hlog. simpl. by rewrite <- !app_assoc.
Qed.

(** The loop: no device list is deleted in it; when it ends, no handle
    has been deleted and the devices hold the handles created, in order;
    when it throws, the handles of [results] and the handles created have
    all been deleted, once each. *)
Lemma create_devices_spec (device_list : option rs_device_list)
    (indices : list Z) (results : list device.t) (w : world (logged N)) :
  exists calls : list native_call,
    log (native (context.create_devices device_list indices results w).2)
    = log (native w) ++ calls
    /\ Forall (fun c => forall p, c <> call_delete_device_list p) calls
    /\ match (context.create_devices device_list indices results w).1 with
       | Ok devices =>
           deleted calls = []
           /\ device._dev <$> devices
              = (device._dev <$> results) ++ created calls
       | Throw _ =>
           deleted calls ≡ₚ (device._dev <$> results) ++ created calls
       end.
Proof.
  revert results w. induction indices as [|i indices IH]; intros results w.
  { exists []. simpl. by rewrite !app_nil_r. }
  simpl context.create_devices.
  destruct (create_one_spec device_list i results w)
    as (dev & calls1 & Hbase & Hone).
  destruct (created_base calls1 Hbase) as [Hcreated1 Hdeleted1].
  assert (Forall (fun c => forall p, c <> call_delete_device_list p) calls1)
    as Hcalls1.
  { eapply Forall_impl; [exact Hbase|]. by intros c [ev ->] p. }
  destruct (context.create_one device_list i results w)
    as [[results1|x] w1].
  - destruct Hone as (rs_dev & -> & Hdev & Hlog1).
    destruct (IH (results ++ [rs_dev]) w1) as (calls & Hlog & Hcalls & Hend).
    exists (call_create_device device_list i dev :: calls1 ++ calls).
    split; [rewrite Hlog, Hlog1; by rewrite <- ?app_assoc|].
    split; [constructor; [done|by apply Forall_app]|].
    rewrite fmap_app in Hend. simpl in Hend. rewrite Hdev in Hend.
    change (call_create_device device_list i dev :: calls1 ++ calls)
      with ([call_create_device device_list i dev] ++ calls1 ++ calls).
    rewrite !created_app, !deleted_app, Hcreated1, Hdeleted1. simpl.
    destruct (context.create_devices _ _ _ w1).1 as [devices|x].
    + destruct Hend as [-> ->]. by rewrite <- app_assoc.
    + by rewrite Hend, <- app_assoc.
  - destruct (destroy_devices_spec results w1) as (w2 & -> & Hlog2).
    simpl.
    exists (call_create_device device_list i dev
              :: calls1 ++ [call_delete_device dev]
              ++ (call_delete_device <$> (device._dev <$> results))).
    split.
    { rewrite Hlog2, Hone, <- !app_assoc. simpl. by rewrite <- !app_assoc. }
    split.
    { constructor; [done|]. apply Forall_app. split; [done|].
      constructor; [done|]. apply Forall_fmap, Forall_true. done. }
    change (call_create_device device_list i dev
              :: calls1 ++ [call_delete_device dev]
              ++ (call_delete_device <$> (device._dev <$> results)))
      with ([call_create_device device_list i dev]
              ++ calls1 ++ [call_delete_device dev]
              ++ (call_delete_device <$> (device._dev <$> results))).
    destruct (deleted_delete_devices (device._dev <$> results))
      as [Hdel Hcre].
    rewrite !created_app, !deleted_app, Hcreated1, Hdeleted1, Hdel, Hcre.
    simpl. by rewrite Permutation_cons_append.
Qed.
Lemma query_devices_run (this : context.t) (w : world (logged N)) :
  exists (device_list : option rs_device_list) (calls : list native_call)
         (r : outcome (list device.t)) (w' : world (logged N)),
    context.query_devices this w = (r, w')
    /\ log (native w')
       = log (native w)
         ++ call_query_devices (context._context this) device_list
            :: calls ++ [call_delete_device_list device_list]
    /\ Forall (fun c => forall p, c <> call_delete_device_list p) calls
    /\ match r with
       | Ok devices =>
           deleted calls = [] /\ device._dev <$> devices = created calls
       | Throw _ => deleted calls ≡ₚ created calls
       end.
Proof.
  unfold context.query_devices.
  unfold mbind at 1. unfold M_bind at 1. unfold call_rest at 1.
  unfold logging. simpl.
  destruct (rs_query_devices _ _) as [[device_list e] n]. simpl.
  exists device_list. unfold scoped.
  destruct e as [err|].
  { erewrite bind_Throw by reflexivity. simpl.
    exists [base_call (call_free_error err)]. eexists _, _.
    split; [reflexivity|]. simpl.
    split; [by rewrite <- !app_assoc|].
    split; [by apply Forall_singleton|by unfold deleted, created]. }
  erewrite bind_Ok by reflexivity.
  unfold mbind at 1. unfold M_bind at 1. unfold call_rest at 1.
  unfold logging. simpl.
  destruct (rs_get_device_count _ _) as [[size e] n']. simpl.
  destruct e as [err|].
  { erewrite bind_Throw by reflexivity. simpl.
    exists [call_get_device_count device_list size;
            base_call (call_free_error err)]. eexists _, _.
    split; [reflexivity|]. simpl.
    split; [by rewrite <- !app_assoc|].
    split; [by apply Forall_cons, conj, Forall_singleton
           |by unfold deleted, created]. }
  erewrite bind_Ok by reflexivity.
  match goal with
  | |- context [context.create_devices device_list ?ixs [] ?w0] =>
      destruct (create_devices_spec device_list ixs [] w0)
        as (calls & Hlog & Hcalls & Hend);
      destruct (context.create_devices device_list ixs [] w0) as [r w1]
  end.
  simpl in *.
  exists (call_get_device_count device_list size :: calls), r. eexists.
  split; [reflexivity|]. simpl.
  split; [rewrite Hlog; by rewrite <- !app_assoc|].
  split; [by constructor|].
  destruct r; exact Hend.
Qed.
End query_devices_facts.

(** X14: [query_devices] leaks no native handle and deletes none twice,
    on any path.  The device list it obtained is deleted exactly once, by
    the last native call it makes, on the pointer [rs_query_devices]
    returned, null or not.  When it returns, no device has been deleted
    and the devices returned hold, in order, the handles
    [rs_create_device] returned.  When it throws, from the native library
    or from the constructor of a device, every handle [rs_create_device]
    returned has been passed to [rs_delete_device] exactly once. *)
Theorem query_devices_leaks_nothing
    {N : Type} `{!Native N} `{!NativeRest N}
    (this : context.t) (w : world (logged N)) :
  exists (device_list : option rs_device_list) (calls : list native_call),
    log (native (context.query_devices this w).2)
    = log (native w)
      ++ call_query_devices (context._context this) device_list
         :: calls ++ [call_delete_device_list device_list]
    /\ Forall (fun c => forall p, c <> call_delete_device_list p) calls
    /\ match (context.query_devices this w).1 with
       | Ok devices =>
           deleted calls = [] /\ device._dev <$> devices = created calls
       | Throw _ => deleted calls ≡ₚ created calls
       end.
Proof.
  destruct (query_devices_run this w)
    as (device_list & calls & r & w' & -> & Hlog & Hcalls & Hend).
  by exists device_list, calls.
Qed.

Section query_devices_order.
Context {N : Type} `{!Native N} `{!NativeRest N}.

Lemma creations_app (calls1 calls2 : list native_call) :
  creations (calls1 ++ calls2) = creations calls1 ++ creations calls2.
Proof. apply bind_app. Qed.

Lemma creations_base (calls : list native_call) :
  Forall is_base calls -> creations calls = [].
Proof.
  induction 1 as [|c calls [ev ->] _ IH]; [done|].
  unfold creations in *. rewrite bind_cons. by rewrite IH.
Qed.

Lemma create_one_Ok (device_list : option rs_device_list) (i : Z)
    (results results' : list device.t) (w w' : world (logged N)) :
  context.create_one device_list i results w = (Ok results', w') ->
  exists (dev : option rs_device) (rs_dev : device.t)
         (calls : list native_call),
    results' = results ++ [rs_dev]
    /\ device._dev rs_dev = dev
    /\ length (device._subdevices rs_dev) = Z.to_nat RS_SUBDEVICE_COUNT
    /\ creations calls = [call_create_device device_list i dev]
    /\ log (native w') = log (native w) ++ calls.
Proof.
  unfold context.create_one.
  unfold mbind at 1. unfold M_bind at 1. unfold call_rest at 1.
  unfold logging. simpl.
  destruct (rs_create_device device_list i (state (native w)))
    as [[dev e] n]. simpl.
  unfold shared_with_result.
  destruct e as [err|]; [by erewrite bind_Throw by reflexivity|].
  erewrite bind_Ok by reflexivity.
  match goal with
  | |- context [(device.ctor dev ≫= _) ?w0] =>
      destruct (appends_ctor dev w0) as (calls & Hlog & Hcalls);
      destruct (device.ctor dev w0) as [[rs_dev|x] w1] eqn:Hctor
  end.
  - erewrite bind_Ok by exact Hctor. simpl. intros [= <- <-].
    apply ctor_Ok in Hctor as (rs & Hrs & -> & _).
    exists dev, {| device._dev := dev;
                   device._subdevices := device.slots dev 0 rs |},
      (call_create_device device_list i dev :: calls).
    split; [done|]. split; [done|].
    split; [simpl; by rewrite length_slots|].
    split.
    + change (call_create_device device_list i dev :: calls)
        with ([call_create_device device_list i dev] ++ calls).
      by rewrite creations_app, (creations_base calls Hcalls).
    + simpl in Hlog. rewrite Hlog. simpl. by rewrite <- app_assoc.
  - by erewrite bind_Throw by exact Hctor.
Qed.

Lemma create_devices_Ok (device_list : option rs_device_list)
    (indices : list Z) (results devices : list device.t)
    (w w' : world (logged N)) :
  context.create_devices device_list indices results w = (Ok devices, w') ->
  exists (new : list device.t) (calls : list native_call),
    devices = results ++ new
    /\ length new = length indices
    /\ Forall (fun d => length (device._subdevices d)
                        = Z.to_nat RS_SUBDEVICE_COUNT) new
    /\ creations calls
       = zip_with (call_create_device device_list) indices
           (device._dev <$> new)
    /\ log (native w') = log (native w) ++ calls.
Proof.
  revert results w. induction indices as [|i indices IH]; intros results w.
  { simpl. intros [= <- <-]. exists [], []. by rewrite !app_nil_r. }
  simpl context.create_devices.
  destruct (context.create_one device_list i results w)
    as [[results1|x] w1] eqn:Hone.
  2:{ by destruct (context.destroy_devices results w1). }
  apply create_one_Ok in Hone
    as (dev & rs_dev & calls1 & -> & Hdev & Hslots & Hcre1 & Hlog1).
  intros (new & calls & -> & Hlen & Hnew & Hcre & Hlog)%IH.
  exists (rs_dev :: new), (calls1 ++ calls).
  split; [by rewrite <- app_assoc|]. split; [simpl; by rewrite Hlen|].
  split; [by constructor|].
  split; [|by rewrite Hlog, Hlog1, <- app_assoc].
  rewrite creations_app, Hcre1, Hcre. simpl. by rewrite Hdev.
Qed.
End query_devices_order.

(** X15: when [query_devices] returns, it has asked for the number
    [size] of devices and created the devices of index 0 up to
    [size - 1], once each and in this order; it returns [size] device
    wrappers (none when [size] is not positive), the wrapper at each
    index holding the handle [rs_create_device] returned for that index
    and a table with one slot per subdevice kind. *)
Theorem query_devices_returns_one_device_per_index
    {N : Type} `{!Native N} `{!NativeRest N}
    (this : context.t) (devices : list device.t) (w w' : world (logged N)) :
  context.query_devices this w = (Ok devices, w') ->
  exists (device_list : option rs_device_list) (size : Z)
         (calls : list native_call),
    log (native w')
    = log (native w)
      ++ [call_query_devices (context._context this) device_list;
          call_get_device_count device_list size]
      ++ calls ++ [call_delete_device_list device_list]
    /\ creations calls
       = zip_with (call_create_device device_list) (seqZ 0 size)
           (device._dev <$> devices)
    /\ length devices = Z.to_nat size
    /\ Forall (fun d => length (device._subdevices d)
                        = Z.to_nat RS_SUBDEVICE_COUNT) devices.
Proof.
  unfold context.query_devices.
  unfold mbind at 1. unfold M_bind at 1. unfold call_rest at 1.
  unfold logging. simpl.
  destruct (rs_query_devices _ _) as [[device_list e] n]. simpl.
  unfold scoped.
  match goal with
  | |- context [let '(_, _) := ?b ?w0 in _] =>
      destruct (b w0) as [r w1] eqn:Hbody
  end.
  simpl. intros [= -> <-]. revert Hbody.
  destruct e as [err|]; [done|].
  erewrite bind_Ok by reflexivity.
  unfold mbind at 1. unfold M_bind at 1. unfold call_rest at 1.
  unfold logging. simpl.
  destruct (rs_get_device_count _ _) as [[size e] n']. simpl.
  destruct e as [err|]; [done|].
  erewrite bind_Ok by reflexivity.
  intros (new & calls & -> & Hlen & Hnew & Hcre & Hlog)%create_devices_Ok.
  exists device_list, size, calls. simpl in *.
  split; [rewrite Hlog; simpl; by rewrite <- !app_assoc|].
  split; [done|]. split; [by rewrite Hlen, length_seqZ|done].
Qed.

Lemma query_devices_returns_one_device_per_index_witness :
  exists (device_list : option rs_device_list) (size : Z)
         (calls : list native_call),
    log (native
           (@context.query_devices _ mock mock_rest
              {| context._context := Some 1%nat |}
              (World (Logged model.full_device []) [])).2)
    = log (native (World (Logged model.full_device []) []))
      ++ [call_query_devices (Some 1%nat) device_list;
          call_get_device_count device_list size]
      ++ calls ++ [call_delete_device_list device_list]
    /\ creations calls
       = zip_with (call_create_device device_list) (seqZ 0 size)
           (device._dev
              <$> [ {| device._dev := Some 10%nat;
                       device._subdevices :=
                         device.slots (Some 10%nat) 0 [1; 1; 1; 1] |};
                    {| device._dev := Some 11%nat;
                       device._subdevices :=
                         device.slots (Some 11%nat) 0 [1; 1; 1; 1] |} ])
    /\ length [ {| device._dev := Some 10%nat;
                   device._subdevices :=
                     device.slots (Some 10%nat) 0 [1; 1; 1; 1] |};
                {| device._dev := Some 11%nat;
                   device._subdevices :=
                     device.slots (Some 11%nat) 0 [1; 1; 1; 1] |} ]
       = Z.to_nat size
    /\ Forall (fun d => length (device._subdevices d)
                        = Z.to_nat RS_SUBDEVICE_COUNT)
         [ {| device._dev := Some 10%nat;
              device._subdevices :=
                device.slots (Some 10%nat) 0 [1; 1; 1; 1] |};
           {| device._dev := Some 11%nat;
              device._subdevices :=
                device.slots (Some 11%nat) 0 [1; 1; 1; 1] |} ].
Proof.
  apply (@query_devices_returns_one_device_per_index _ mock mock_rest
           {| context._context := Some 1%nat |}
           [ {| device._dev := Some 10%nat;
                device._subdevices :=
                  device.slots (Some 10%nat) 0 [1; 1; 1; 1] |};
             {| device._dev := Some 11%nat;
                device._subdevices :=
                  device.slots (Some 11%nat) 0 [1; 1; 1; 1] |} ]
           (World (Logged model.full_device []) [])
           (@context.query_devices _ mock mock_rest
              {| context._context := Some 1%nat |}
              (World (Logged model.full_device []) [])).2).
  reflexivity.
Defined.
